(** * relay: per-shell script relay service

    A shallow embedding of the Go packages [srv] (src/srv/service.go),
    [server] (the earlier, export-free variant of the same service) and of
    the command-line front end (src/main.go: the flags [-e] and [-l],
    [resolveShell], [parseServiceArg] and the loop over the arguments),
    together with the properties of the connection protocol, the spool
    file, the spawned process, the listener loop and the start-up.

    Conventions.  Go strings are byte strings and are modelled by [string].
    A Go [error] value is modelled by the inductive [error]; a nil error is
    [None].  A Go slice that may be nil is an [option (list _)].  Every
    interaction of the handler with the outside (the socket, the file
    system, the process table, the logger) is recorded as an [Event] of a
    trace, and every answer of the outside is read from a [World]. *)

From stdpp Require Import base tactics option list strings gmap fin_maps.
From Stdlib Require Import Ascii String Lia.

Open Scope string_scope.
Open Scope list_scope.

(* ===================================================================== *)
(** ** Go strings *)
(* ===================================================================== *)

Module gostring.

(** The line delimiter ['\n']. *)
Definition nl : ascii := "010"%char.

(** [len(s)] *)
Definition len (s : string) : nat := String.length s.

(** [s[:j]] for [j <= len(s)] *)
Definition slice_to (s : string) (j : nat) : string := substring 0 j s.

(** [s[i:]] for [i <= len(s)] *)
Definition slice_from (s : string) (i : nat) : string :=
  substring i (len s - i) s.

(** [s[i]] *)
Definition index (s : string) (i : nat) : option ascii := String.get i s.

(** [strings.IndexByte(s, c)], and [strings.Index(s, sep)] for a
    separator [sep] of the one byte [c]; [None] is the result -1. *)
Fixpoint IndexByte (s : string) (c : ascii) : option nat :=
  match s with
  | EmptyString => None
  | String x s' => if decide (x = c) then Some 0 else S <$> IndexByte s' c
  end.

(** [strings.HasPrefix(s, "/")], which is [filepath.IsAbs] on Unix. *)
Definition IsAbs (path : string) : bool :=
  match path with
  | String c _ => if decide (c = "/"%char) then true else false
  | EmptyString => false
  end.

(** The concatenation of a list of chunks. *)
Fixpoint concat (l : list string) : string :=
  match l with
  | [] => ""
  | x :: l' => x +:+ concat l'
  end.

(** The pattern of service.go:176-179:
<<
      trimmed := line
      if len(trimmed) > 0 && trimmed[len(trimmed)-1] == '\n' {
        trimmed = trimmed[:len(trimmed)-1]
      }
>> *)
Definition trimNewline (line : string) : string :=
  if bool_decide (0 < len line) &&
     bool_decide (index line (len line - 1) = Some nl)
  then slice_to line (len line - 1)
  else line.

End gostring.
Import gostring.

(* ===================================================================== *)
(** ** Go errors *)
(* ===================================================================== *)

(** [EOF] is the sentinel [io.EOF]; [errorString] is any other opaque error
    (a network error, [ENOSPC], an [*exec.ExitError], ...); [wrapError] is
    an error that wraps another one, as [fmt.Errorf("...: %w", err)]
    builds. *)
Inductive error : Type :=
| EOF
| errorString (msg : string)
| wrapError (msg : string) (inner : error).

#[global] Instance error_eq_dec : EqDecision error.
Proof. solve_decision. Defined.

(** [err.Error()] *)
Definition Error (err : error) : string :=
  match err with
  | EOF => "EOF"
  | errorString msg => msg
  | wrapError msg _ => msg
  end.

(** [errors.Is(err, io.EOF)]: walks the chain of wrapped errors. *)
Fixpoint errors_Is_EOF (err : error) : bool :=
  match err with
  | EOF => true
  | errorString _ => false
  | wrapError _ inner => errors_Is_EOF inner
  end.

(* ===================================================================== *)
(** ** The buffered reader over a connection *)
(* ===================================================================== *)

(** What the peer sends on a connection: the bytes [input], after which
    every read fails with [readErr] ([io.EOF] when the peer closes its
    side in an orderly way, another error otherwise). *)
Record Conn : Type := {
  input : string;
  readErr : error;
}.

(** The view of [bufio.Reader.ReadString('\n')] on that stream: each call
    returns the next complete line (delimiter included) with a nil error,
    until no delimiter is left; the next call then returns the unterminated
    rest together with the read error. *)
Record Reader : Type := {
  lines : list string;
  partial : string;
  fin : error;
}.

(** Cuts a byte string into its complete lines and its unterminated rest. *)
Fixpoint frame (s : string) : list string * string :=
  match s with
  | EmptyString => ([], "")
  | String c s' =>
      let '(ls, p) := frame s' in
      if decide (c = nl) then (String nl "" :: ls, p)
      else match ls with
           | [] => ([], String c p)
           | l :: ls' => (String c l :: ls', p)
           end
  end.

(** [bufio.NewReader(conn)] *)
Definition NewReader (conn : Conn) : Reader :=
  {| lines := (frame (input conn)).1;
     partial := (frame (input conn)).2;
     fin := readErr conn |}.

(** One call of [reader.ReadString('\n')]: the data, the error, and the
    reader afterwards. *)
Definition ReadString (r : Reader) : (string * option error) * Reader :=
  match lines r with
  | line :: rest =>
      ((line, None), {| lines := rest; partial := partial r; fin := fin r |})
  | [] =>
      ((partial r, Some (fin r)), {| lines := []; partial := ""; fin := fin r |})
  end.

(* ===================================================================== *)
(** ** Processes, events and the outside world *)
(* ===================================================================== *)

(** The fields of [exec.Cmd] that the service sets.  [Env] is a slice:
    [None] is the nil slice. *)
Record Cmd : Type := {
  Path : string;
  Args : list string;
  Env : option (list string);
}.

#[global] Instance Cmd_eq_dec : EqDecision Cmd.
Proof. solve_decision. Defined.

(** Go's built-in [append(s, xs...)] on a possibly nil slice [s]: nothing
    is allocated when there is nothing to add, so a nil slice stays nil. *)
Definition append {A} (s : option (list A)) (xs : list A) : option (list A) :=
  match s, xs with
  | None, [] => None
  | None, _ :: _ => Some xs
  | Some l, _ => Some (l ++ xs)
  end.

(** *** The environment of a started process

    [cmd.Start()] hands to the new process the environment that the method
    [environ] of [exec.Cmd] returns, and fails, before any process is
    created, when that method returns an error.  The method is part of
    the Go standard library (os/exec), not of the repository; what follows
    is that code as it runs on Unix, where names are case sensitive and a
    NUL byte is not allowed:
<<
      env := c.Env
      if env == nil {
        env, err = execenv.Default(c.SysProcAttr)   // os.Environ()
        ...                                         // c.Dir is empty here
      }
      env, dedupErr := dedupEnv(env)
      ...
      return addCriticalEnv(env), err               // unchanged on Unix
>> *)

(** The name under which the loop of [dedupEnvCase] files an entry
    [kv], that is [kv[:i]] for
<<
      i := strings.Index(kv, "=")
      if i == 0 {
        i = strings.Index(kv[1:], "=") + 1
      }
>>
    and [None] when [i < 0]: the entry has no name. *)
Definition envName (kv : string) : option string :=
  match IndexByte kv "="%char with
  | None => None
  | Some 0 =>
      let i := match IndexByte (slice_from kv 1) "="%char with
               | None => 0
               | Some j => j + 1
               end in
      Some (slice_to kv i)
  | Some i => Some (slice_to kv i)
  end.

(** [strings.IndexByte(kv, 0) != -1] *)
Definition hasNUL (kv : string) : bool :=
  bool_decide (IndexByte kv "000"%char ≠ None).

Definition NULerr : error :=
  errorString "exec: environment variable contains NUL".

(** One iteration of the loop of [dedupEnvCase], which goes through the
    entries from the last to the first:
<<
      if !nulOK && strings.IndexByte(kv, 0) != -1 {
        err = errors.New("exec: environment variable contains NUL")
        continue
      }
      ...
      if i < 0 {
        if kv != "" {
          out = append(out, kv)
        }
        continue
      }
      k := kv[:i]
      ...
      if saw[k] {
        continue
      }
      saw[k] = true
      out = append(out, kv)
>> *)
Definition dedupStep (st : list string * gset string * option error)
           (kv : string) : list string * gset string * option error :=
  let '(out, saw, err) := st in
  if hasNUL kv then (out, saw, Some NULerr)
  else
    match envName kv with
    | None => if decide (kv = "") then st else (out ++ [kv], saw, err)
    | Some k =>
        if decide (k ∈ saw) then st else (out ++ [kv], {[ k ]} ∪ saw, err)
    end.

Definition dedupLoop (env : list string)
  : list string * gset string * option error :=
  foldl dedupStep ([], ∅, None) (reverse env).

(** [dedupEnv(env)]: the loop, after which [out] is reversed "to restore
    the original order". *)
Definition dedupEnv (env : list string) : list string * option error :=
  let '(out, _, err) := dedupLoop env in (reverse out, err).

(** The method [environ] of [exec.Cmd] in a process whose own environment
    is [parent]: "If Env is nil, the new process uses the current
    process's environment". *)
Definition Cmd_environ (parent : list string) (c : Cmd)
  : list string * option error :=
  dedupEnv (match Env c with
            | None => parent
            | Some env => env
            end).

(** The environment a started process gets. *)
Definition environ (parent : list string) (c : Cmd) : list string :=
  (Cmd_environ parent c).1.

(** What happens to a command: [cmd.Start()] fails, or the process runs to
    its end, having written [stdout] and [stderr], and [cmd.Wait()] returns
    [cmdErr] (nil exactly for exit status zero). *)
Inductive Proc : Type :=
| StartFailed (err : error)
| Exited (stdout stderr : string) (cmdErr : option error).

Inductive Level : Type := LevelInfo | LevelWarn | LevelError.

#[global] Instance Level_eq_dec : EqDecision Level.
Proof. solve_decision. Defined.

(** The observable actions of a connection handler, in program order. *)
Inductive Event : Type :=
| ConnWrite (data : string)                      (* conn.Write, fmt.Fprintf(conn, ...) *)
| Log (lvl : Level) (msg : string) (attrs : list (string * string))
| CreateTemp (name : string)                     (* os.CreateTemp succeeded *)
| WriteString (name : string) (data : string)    (* tmpFile.WriteString succeeded *)
| Close (name : string)                          (* tmpFile.Close *)
| Start (cmd : Cmd) (script : string)            (* cmd.Start succeeded *)
| Remove (name : string)                         (* os.Remove *)
| ConnClose.                                     (* conn.Close *)

#[global] Instance Event_eq_dec : EqDecision Event.
Proof. solve_decision. Defined.

(** The answers of the operating system to one connection handler.  The
    index [k] counts the spool files the handler has asked for so far, so
    it identifies the cycle. *)
Record World : Type := {
(** [os.CreateTemp("", "relay-script-*")] of cycle [k] *)
  createTemp : nat -> error + string;
(** [tmpFile.WriteString(line)] of cycle [k], with the contents written
    so far *)
  writeString : nat -> string -> string -> option error;
(** the order in which [for k, v := range s.expo] visits the entries *)
  rangeMap : nat -> list (string * string) -> list (string * string);
(** the fate of the command of cycle [k], run on a spool file with the
    given contents *)
  run : nat -> Cmd -> string -> Proc;
}.

(** How a function call ends. *)
Inductive Ret : Type :=
| RetNil                  (* return nil *)
| RetErr (err : error)    (* return err *)
| Panic.                  (* run-time panic *)

#[global] Instance Ret_eq_dec : EqDecision Ret.
Proof. solve_decision. Defined.

Record Outcome : Type := {
  ret : Ret;
  trace : list Event;
}.

Definition prepend (evs : list Event) (o : Outcome) : Outcome :=
  {| ret := ret o; trace := evs ++ trace o |}.

Infix "+>" := prepend (at level 65, right associativity).

(** [return r] with the deferred [os.Remove] calls, most recent first. *)
Definition returning (defers : list string) (r : Ret) : Outcome :=
  {| ret := r; trace := Remove <$> defers |}.

(** The error line of [fmt.Fprintf(conn, "error: <what>: %v\n", err)]. *)
Definition errorLine (what : string) (err : error) : string :=
  "error: " +:+ what +:+ ": " +:+ Error err +:+ String nl "".

(** The pair that every failure path of the handler performs: the error
    line to the client, then a log record whose message is the same
    [what] and whose only attribute is the error text. *)
Definition report (lvl : Level) (what : string) (err : error) : list Event :=
  [ConnWrite (errorLine what err); Log lvl what [("error", Error err)]].

(** What the body of a [for] loop does next. *)
Inductive Next : Type :=
| Continue
| Return (r : Ret).

(* ===================================================================== *)
(** ** Package srv (src/srv/service.go) *)
(* ===================================================================== *)

Module srv.

Definition Protocol : string := "tcp".

(** service.go:19-28.  The logger [log] is left out: what the service logs
    is part of the traces. *)
Record Service : Type := {
  shell : string;
  cmd : string;
  addr : string;
  port : Z;
  proto : string;
  expo : gmap string string;
}.

(** [fmt.Sprintf("%s=%s", k, v)] *)
Definition assignment (kv : string * string) : string :=
  kv.1 +:+ "=" +:+ kv.2.

Section handler.

Variable s : Service.
Variable w : World.

(** service.go:199-202
<<
        export := []string{}
        for k, v := range s.expo {
          export = append(export, fmt.Sprintf("%s=%s", k, v))
        }
>> *)
Definition export (k : nat) : list string :=
  assignment <$> rangeMap w k (map_to_list (expo s)).

(** service.go:204-207
<<
        cmd := exec.CommandContext(ctx, s.cmd, "-l", tmpFile.Name())
        ...
        cmd.Env = append(cmd.Env, export...)
>> *)
Definition command (k : nat) (name : string) : Cmd :=
  let c := {| Path := cmd s; Args := [cmd s; "-l"; name]; Env := None |} in
  {| Path := Path c; Args := Args c; Env := append (Env c) (export k) |}.

(** service.go:197-247, the state Executing: from [tmpFile.Close()] to
    the decision at the end of the cycle. *)
Definition execute (k : nat) (name file : string) : list Event * Next :=
  let c := command k name in
  match run w k c file with
  | StartFailed err =>
      ([Close name] ++ report LevelWarn "failed to start shell" err,
       Return RetNil)
  | Exited stdout stderr cmdErr =>
      let relay :=
        (if bool_decide (0 < len stdout) then [ConnWrite stdout] else []) ++
        (if bool_decide (0 < len stderr) then [ConnWrite stderr] else []) in
      let evs := [Close name; Start c file] ++ relay ++ [Remove name] in
      match cmdErr with
      | Some err =>
          (evs ++ report LevelWarn "script execution failed" err, Continue)
      | None =>
          (evs ++ [Log LevelInfo "script executed successfully" []],
           Return RetNil)
      end
  end.

Section loops.

(** The last answer of the reader: [ReadString] returns [(rest, err)]
    once the complete lines are used up. *)
Variable rest : string.
Variable err : error.

(** service.go:128-248.  [awaitMarker] is the outer [for] loop from
    its head, [receiveScript] the inner one.  Each iteration of
    either starts with one [ReadString]: [ls] are the complete lines
    not read yet.  [k] counts the spool files created so far and
    [defers] is the stack of deferred [os.Remove] arguments. *)
Fixpoint awaitMarker (k : nat) (defers : list string)
         (ls : list string) {struct ls} : Outcome :=
  match ls with
  | [] =>
      (* eofMarker, err := reader.ReadString('\n'); err != nil *)
      let _ := rest in
      (if errors_Is_EOF err then []
       else report LevelWarn "failed to read EOF marker" err)
      +> returning defers RetNil
  | eofMarker :: ls' =>
      (* eofMarker = eofMarker[:len(eofMarker)-1] *)
      if bool_decide (len eofMarker = 0) then returning defers Panic
      else
        let eofMarker := slice_to eofMarker (len eofMarker - 1) in
        if bool_decide (len eofMarker = 0) then
          awaitMarker k defers ls'
        else
          match createTemp w k with
          | inl e =>
              report LevelError "failed to create temp file" e
              +> returning defers (RetErr e)
          | inr name =>
              [CreateTemp name]
              +> receiveScript k name (name :: defers) eofMarker "" ls'
          end
  end

with receiveScript (k : nat) (name : string) (defers : list string)
         (eofMarker file : string) (ls : list string) {struct ls}
         : Outcome :=
  match ls with
  | [] =>
      (* line, err := reader.ReadString('\n'); err != nil *)
      let _ := rest in
      (if bool_decide (err ≠ EOF)
       then report LevelWarn "failed to read script" err
       else [])
      +> returning defers RetNil
  | line :: ls' =>
      let trimmed := trimNewline line in
      if bool_decide (trimmed = eofMarker) then
        (* break *)
        match execute k name file with
        | (evs, Return r) => evs +> returning defers r
        | (evs, Continue) => evs +> awaitMarker (S k) defers ls'
        end
      else
        match writeString w k file line with
        | Some e =>
            report LevelWarn "failed to write script" e
            +> returning defers RetNil
        | None =>
            [WriteString name line]
            +> receiveScript k name defers eofMarker (file +:+ line) ls'
        end
  end.

End loops.

(** service.go:125-249 *)
Definition HandleConnection (conn : Conn) : Outcome :=
  let reader := NewReader conn in
  awaitMarker (partial reader) (fin reader) 0 [] (lines reader).

End handler.

(** What one iteration of the accept loop observes: the answer of
    [ln.Accept()] and, when the [select] runs, whether [ctx.Done()] is
    closed.  An accepted connection comes with the world its handler
    will live in. *)
Inductive Accept : Type :=
| AcceptErr (err : error)
| Accepted (conn : Conn) (w : World) (source : string).

Record Tick : Type := {
  accepted : Accept;
  done : bool;
}.

(** The actions of the listener loop. *)
Inductive Action : Type :=
| Logged (lvl : Level) (msg : string) (attrs : list (string * string))
| Go (task : Outcome)          (* g.Go(func() error { ... }) *)
| LnClose.                     (* ln.Close() *)

(** How far a call of [ListenAndServe] got: it returned, or it is still
    waiting in [ln.Accept()]. *)
Inductive Status : Type :=
| Returned (err : option error)
| Accepting.

Section listener.

Variable s : Service.

(** service.go:116-120, the task given to the error group:
<<
        defer conn.Close()
        return s.HandleConnection(ctx, conn)
>> *)
Definition serve (w : World) (conn : Conn) : Outcome :=
  let o := HandleConnection s w conn in
  {| ret := ret o; trace := trace o ++ [ConnClose] |}.

(** service.go:92-122, the accept loop.  The result of a task is kept
    by the error group [g], which the function never waits on. *)
Fixpoint acceptLoop (ticks : list Tick) : Status * list Action :=
  match ticks with
  | [] => (Accepting, [])
  | t :: ticks' =>
      if done t then
        (Returned None,
         [Logged LevelInfo "state changed" [("state", "shutdown")]])
      else
        match accepted t with
        | AcceptErr e =>
            let '(st, acts) := acceptLoop ticks' in
            (st, Logged LevelWarn "failed to accept" [("error", Error e)]
                 :: acts)
        | Accepted conn w source =>
            let '(st, acts) := acceptLoop ticks' in
            (st, Logged LevelInfo "accepted connection" [("source", source)]
                 :: Go (serve w conn) :: acts)
        end
  end.

(** service.go:68-123.  [listen] is the error of [Listen], if any.  The
    task that closes the listener when the context is cancelled is what
    makes a pending [ln.Accept()] return; here the answers of [Accept]
    are given. *)
Definition ListenAndServe (listen : option error) (ticks : list Tick)
  : Status * list Action :=
  match listen with
  | Some e =>
      (Returned (Some e),
       [Logged LevelError "failed to listen" [("error", Error e)]])
  | None =>
      let '(st, acts) := acceptLoop ticks in
      (st,
       Logged LevelInfo "state changed" [("state", "listening")] :: acts
       ++ match st with Returned _ => [LnClose] | Accepting => [] end)
  end.

End listener.

End srv.

(* ===================================================================== *)
(** ** Go integers *)
(* ===================================================================== *)

Module goint.

(** The value of type [int] (64 bits, two's complement) that an
    arithmetic result [z] is stored as. *)
Definition int (z : Z) : Z :=
  ((z + 2 ^ 63) `mod` 2 ^ 64 - 2 ^ 63)%Z.

(** The values of type [int]. *)
Definition isInt (z : Z) : Prop := (- 2 ^ 63 ≤ z < 2 ^ 63)%Z.

End goint.

(* ===================================================================== *)
(** ** Package server (the earlier variant of the service) *)
(* ===================================================================== *)

Module server.

Record Service : Type := {
  shell : string;
  cmd : string;
  port : Z;
  proto : string;
}.

(** The command of a cycle in [HandleConnection] of this package:
<<
      cmd := exec.CommandContext(ctx, s.cmd, "-l", tmpFile.Name())
      stdoutPipe, _ := cmd.StdoutPipe()
      stderrPipe, _ := cmd.StderrPipe()
>>
      [cmd.Env] is never assigned. *)
Definition command (s : Service) (name : string) : Cmd :=
  {| Path := cmd s; Args := [cmd s; "-l"; name]; Env := None |}.

Definition Protocol : string := "tcp".

Section handler.

Variable s : Service.
Variable w : World.

(** The state Executing of [HandleConnection] in this package, from
    [tmpFile.Close()] to the decision at the end of the cycle. *)
Definition execute (k : nat) (name file : string) : list Event * Next :=
  let c := command s name in
  match run w k c file with
  | StartFailed err =>
      ([Close name] ++ report LevelWarn "failed to start shell" err,
       Return RetNil)
  | Exited stdout stderr cmdErr =>
      let relay :=
        (if bool_decide (0 < len stdout) then [ConnWrite stdout] else []) ++
        (if bool_decide (0 < len stderr) then [ConnWrite stderr] else []) in
      let evs := [Close name; Start c file] ++ relay ++ [Remove name] in
      match cmdErr with
      | Some err =>
          (evs ++ report LevelWarn "script execution failed" err, Continue)
      | None =>
          (evs ++ [Log LevelInfo "script executed successfully" []],
           Return RetNil)
      end
  end.

Section loops.

Variable rest : string.
Variable err : error.

(** The two loops of [HandleConnection] in this package.  Both compare
    the read error with [io.EOF] itself. *)
Fixpoint awaitMarker (k : nat) (defers : list string)
         (ls : list string) {struct ls} : Outcome :=
  match ls with
  | [] =>
      let _ := rest in
      (if bool_decide (err ≠ EOF)
       then report LevelWarn "failed to read EOF marker" err
       else [])
      +> returning defers RetNil
  | eofMarker :: ls' =>
      if bool_decide (len eofMarker = 0) then returning defers Panic
      else
        let eofMarker := slice_to eofMarker (len eofMarker - 1) in
        if bool_decide (len eofMarker = 0) then
          awaitMarker k defers ls'
        else
          match createTemp w k with
          | inl e =>
              report LevelError "failed to create temp file" e
              +> returning defers (RetErr e)
          | inr name =>
              [CreateTemp name]
              +> receiveScript k name (name :: defers) eofMarker "" ls'
          end
  end

with receiveScript (k : nat) (name : string) (defers : list string)
         (eofMarker file : string) (ls : list string) {struct ls}
         : Outcome :=
  match ls with
  | [] =>
      let _ := rest in
      (if bool_decide (err ≠ EOF)
       then report LevelWarn "failed to read script" err
       else [])
      +> returning defers RetNil
  | line :: ls' =>
      let trimmed := trimNewline line in
      if bool_decide (trimmed = eofMarker) then
        match execute k name file with
        | (evs, Return r) => evs +> returning defers r
        | (evs, Continue) => evs +> awaitMarker (S k) defers ls'
        end
      else
        match writeString w k file line with
        | Some e =>
            report LevelWarn "failed to write script" e
            +> returning defers RetNil
        | None =>
            [WriteString name line]
            +> receiveScript k name defers eofMarker (file +:+ line) ls'
        end
  end.

End loops.

Definition HandleConnection (conn : Conn) : Outcome :=
  let reader := NewReader conn in
  awaitMarker (partial reader) (fin reader) 0 [] (lines reader).

End handler.

Section listener.

Variable s : Service.

(** The task given to the error group, the accept loop and
    [ListenAndServe] of this package; they differ from those of package
    [srv] in the address of the listener only. *)
Definition serve (w : World) (conn : Conn) : Outcome :=
  let o := HandleConnection s w conn in
  {| ret := ret o; trace := trace o ++ [ConnClose] |}.

Fixpoint acceptLoop (ticks : list srv.Tick) : srv.Status * list srv.Action :=
  match ticks with
  | [] => (srv.Accepting, [])
  | t :: ticks' =>
      if srv.done t then
        (srv.Returned None,
         [srv.Logged LevelInfo "state changed" [("state", "shutdown")]])
      else
        match srv.accepted t with
        | srv.AcceptErr e =>
            let '(st, acts) := acceptLoop ticks' in
            (st, srv.Logged LevelWarn "failed to accept" [("error", Error e)]
                 :: acts)
        | srv.Accepted conn w source =>
            let '(st, acts) := acceptLoop ticks' in
            (st, srv.Logged LevelInfo "accepted connection"
                            [("source", source)]
                 :: srv.Go (serve w conn) :: acts)
        end
  end.

Definition ListenAndServe (listen : option error) (ticks : list srv.Tick)
  : srv.Status * list srv.Action :=
  match listen with
  | Some e =>
      (srv.Returned (Some e),
       [srv.Logged LevelError "failed to listen" [("error", Error e)]])
  | None =>
      let '(st, acts) := acceptLoop ticks in
      (st,
       srv.Logged LevelInfo "state changed" [("state", "listening")] :: acts
       ++ match st with srv.Returned _ => [srv.LnClose] | srv.Accepting => [] end)
  end.

End listener.

Section make.

(** [exec.LookPath] *)
Variable LookPath : string → error + string.

(** [Make] of this package, from the shell at index [i] on:
<<
      for i, shell := range shells {
        ...
        path, err := exec.LookPath(shell)
        if err != nil {
          l.WarnContext(ctx, "shell unregistered", ...)
          continue
        }
        ...
        server[shell] = Service{shell: shell, cmd: path, port: port + i, ...}
      }
>> *)
Fixpoint register (port : Z) (i : nat) (shells : list string)
         (server : gmap string Service) : gmap string Service :=
  match shells with
  | [] => server
  | shell :: shells' =>
      match LookPath shell with
      | inl _ => register port (S i) shells' server
      | inr path =>
          register port (S i) shells'
            (<[shell := {| shell := shell; cmd := path;
                           port := goint.int (port + Z.of_nat i);
                           proto := Protocol |}]> server)
      end
  end.

Definition Make (port : Z) (shells : list string) : gmap string Service :=
  register port 0 shells ∅.

End make.

End server.

(* ===================================================================== *)
(** ** Package main (src/main.go): resolving a shell *)
(* ===================================================================== *)

Module main.

(** *** Library functions on strings *)

Definition byte (a : ascii) : nat := nat_of_ascii a.

(** The white space of [unicode.IsSpace], by UTF-8 encoding: the six
    ASCII characters ['\t'], ['\n'], ['\v'], ['\f'], ['\r'], [' '];
    U+0085 and U+00A0; U+1680, U+2000..U+200A, U+2028, U+2029, U+202F,
    U+205F and U+3000. *)
Definition space1 (a : ascii) : bool :=
  bool_decide (9 ≤ byte a ≤ 13)%nat || bool_decide (byte a = 32).

Definition space2 (a b : ascii) : bool :=
  bool_decide (byte a = 194) &&
  (bool_decide (byte b = 133) || bool_decide (byte b = 160)).

Definition space3 (a b c : ascii) : bool :=
  (bool_decide (byte a = 225) && bool_decide (byte b = 154) &&
   bool_decide (byte c = 128))
  || (bool_decide (byte a = 226) && bool_decide (byte b = 128) &&
      (bool_decide (128 ≤ byte c ≤ 138)%nat || bool_decide (byte c = 168) ||
       bool_decide (byte c = 169) || bool_decide (byte c = 175)))
  || (bool_decide (byte a = 226) && bool_decide (byte b = 129) &&
      bool_decide (byte c = 159))
  || (bool_decide (byte a = 227) && bool_decide (byte b = 128) &&
      bool_decide (byte c = 128)).

(** Removes the leading runes recognised by [sp1], [sp2] and [sp3]. *)
Fixpoint trimLeftWith (sp1 : ascii → bool) (sp2 : ascii → ascii → bool)
         (sp3 : ascii → ascii → ascii → bool) (s : string) : string :=
  match s with
  | EmptyString => ""
  | String a s1 =>
      if sp1 a then trimLeftWith sp1 sp2 sp3 s1
      else match s1 with
           | EmptyString => s
           | String b s2 =>
               if sp2 a b then trimLeftWith sp1 sp2 sp3 s2
               else match s2 with
                    | EmptyString => s
                    | String c s3 =>
                        if sp3 a b c then trimLeftWith sp1 sp2 sp3 s3
                        else s
                    end
           end
  end.

(** [strings.TrimSpace]: leading white space is removed, then trailing
    white space (read from the end, so on the reversed bytes). *)
Definition TrimSpace (s : string) : string :=
  let s := trimLeftWith space1 space2 space3 s in
  String.rev
    (trimLeftWith space1 (λ b a, space2 a b) (λ c b a, space3 a b c)
                  (String.rev s)).

(** [strings.Split(s, ":")] *)
Fixpoint Split (s : string) : list string :=
  match s with
  | EmptyString => [""]
  | String c s' =>
      let ps := Split s' in
      if decide (c = ":"%char) then "" :: ps
      else match ps with
           | p :: ps' => String c p :: ps'
           | [] => [String c ""]
           end
  end.

(** *** The operating system, as the resolver sees it *)

(** The answer of [os.Stat]: a file is there, or an error for which
    [os.IsNotExist] holds or not. *)
Inductive StatResult : Type :=
| StatInfo
| StatErr (notExist : bool) (err : error).

Record OS : Type := {
  Stat : string → StatResult;          (* os.Stat *)
  LookPath : string → error + string;  (* exec.LookPath *)
  Abs : string → error + string;       (* filepath.Abs *)
}.

Section resolve.

Variable os : OS.
(** [strconv.Quote], the [%q] of the error messages, and [strconv.Atoi]
    and [strconv.Itoa] *)
Variable Quote : string → string.
Variable Atoi : string → error + Z.
Variable Itoa : Z → string.

(** main.go:128-159 *)
Definition resolveShell (shell : string) : error + string :=
  let shell := TrimSpace shell in
  if decide (shell = "") then inl (errorString "shell name is empty")
  else if IsAbs shell then inr shell
  else
    match Stat os shell with
    | StatErr true _ =>
        match LookPath os shell with
        | inl _ =>
            inl (errorString ("shell " +:+ Quote shell +:+ " not found"))
        | inr path => inr path
        end
    | StatErr false err =>
        inl (wrapError ("failed to stat " +:+ Quote shell +:+ ": "
                        +:+ Error err) err)
    | StatInfo =>
        match Abs os shell with
        | inl err =>
            inl (wrapError ("cannot resolve path " +:+ Quote shell
                            +:+ ": " +:+ Error err) err)
        | inr abs => inr abs
        end
    end.

(** main.go:161-225 *)
Definition parseServiceArg (arg defaultAddr : string) (defaultPort : Z)
  : error + (string * string * Z) :=
  let parts := Split arg in
  match parts with
  | [] => inl (errorString "shell name is required")
  | shell :: more =>
      if decide (shell = "") then
        inl (errorString "shell name is required")
      else
        let parsed : error + (string * Z) :=
          match more with
          | [] => inr ("", 0%Z)
          | [a] => inr (a, 0%Z)
          | [a; p] =>
              if decide (p = "") then inr (a, 0%Z)
              else match Atoi p with
                   | inl err =>
                       inl (wrapError ("invalid port " +:+ Quote p +:+ ": "
                                       +:+ Error err) err)
                   | inr n => inr (a, n)
                   end
          | _ =>
              inl (errorString ("invalid format " +:+ Quote arg
                                +:+ ": too many colons"))
          end in
        match parsed with
        | inl err => inl err
        | inr (addr, port) =>
            let addr := if decide (addr = "") then defaultAddr else addr in
            let port := if decide (port = 0%Z) then defaultPort else port in
            if bool_decide (port < 1 ∨ port > 65535)%Z then
              inl (errorString ("port " +:+ Itoa port
                                +:+ " out of range (1-65535)"))
            else
              match resolveShell shell with
              | inl err => inl err
              | inr shell => inr (shell, addr, port)
              end
        end
  end.

(** service.go:30-66, without the log records *)
Definition Make (shell addr : string) (port : Z)
           (expo : gmap string string) : error + srv.Service :=
  match LookPath os shell with
  | inl err =>
      inl (wrapError ("shell " +:+ Quote shell +:+ " not found: "
                      +:+ Error err) err)
  | inr path =>
      inr {| srv.shell := shell; srv.cmd := path; srv.addr := addr;
             srv.port := port; srv.proto := srv.Protocol;
             srv.expo := expo |}
  end.

(** How the start of one service ends in [main]: the program exits, or
    the service is handed to its listener task. *)
Inductive Startup : Type :=
| Exit (code : Z)
| Serving (svc : srv.Service).

(** main.go:380-415, the body of the loop over the arguments, up to
    the construction of the service. *)
Definition startService (arg defaultAddr : string) (currentDefaultPort : Z)
           (expo : gmap string string) : Startup :=
  match parseServiceArg arg defaultAddr currentDefaultPort with
  | inl _ => Exit 1
  | inr (shell, addr, port) =>
      match Make shell addr port expo with
      | inl _ => Exit 1
      | inr svc => Serving svc
      end
  end.

End resolve.

(** *** The flags and the loop over the arguments *)

(** [strings.Cut(s, "=")]: the text before and after the first ["="], and
    whether there is one. *)
Fixpoint Cut (s : string) : string * string * bool :=
  match s with
  | EmptyString => ("", "", false)
  | String c s' =>
      if decide (c = "="%char) then ("", s', true)
      else let '(before, after, found) := Cut s' in
           (String c before, after, found)
  end.

Section flags.

Variable os : OS.
Variable Quote : string → string.
Variable Atoi : string → error + Z.
Variable Itoa : Z → string.

(** main.go:113-126, the method [Set] of [exportFlag] ([Set] is a
    keyword here).  The flag value is a map that
    may be nil ([None]); the result is the error and the value the
    receiver points to afterwards. *)
Definition exportSet (f : option (gmap string string)) (s : string)
  : option error * option (gmap string string) :=
  let '(ident, value, found) := Cut s in
  if negb found then
    (Some (errorString ("invalid export format: " +:+ Quote s
                        +:+ " (expected IDENT=VALUE)")), f)
  else
    let m := match f with None => ∅ | Some m => m end in
    (None, Some (<[ident := value]> m)).

(** main.go:98-111, the method [String] of [exportFlag], on the entries in the order
    [kvs] in which the [range] visits them. *)
Fixpoint writeEntries (sb : string) (kvs : list (string * string)) : string :=
  match kvs with
  | [] => sb
  | (k, v) :: kvs' =>
      let sb := if bool_decide (0 < len sb) then sb +:+ "," else sb in
      writeEntries (((sb +:+ k) +:+ "=") +:+ Quote v) kvs'
  end.

Definition exportString (kvs : list (string * string)) : string :=
  writeEntries "" kvs.

(** main.go:298-337: the default address and port from the flag [-l].
    [inl code] is [os.Exit(code)]. *)
Definition listenDefaults (listen : string) : Z + (string * Z) :=
  let defaultAddr := "127.0.0.1" in
  let defaultPort := 50135%Z in
  if decide (listen = "") then inr (defaultAddr, defaultPort)
  else
    match Split listen with
    | [p] =>
        match Atoi p with
        | inl _ => inl 1%Z
        | inr n => inr (defaultAddr, n)
        end
    | [a; p] =>
        let defaultAddr := if decide (a = "") then defaultAddr else a in
        if decide (p = "") then inr (defaultAddr, defaultPort)
        else match Atoi p with
             | inl _ => inl 1%Z
             | inr n => inr (defaultAddr, n)
             end
    | _ => inl 1%Z
    end.

(** main.go:376-415, the loop over the arguments: the services handed to
    their listener tasks, or [inl code] for [os.Exit(code)]. *)
Fixpoint services (args : list string) (defaultAddr : string)
         (defaultPort portOffset : Z) (expo : gmap string string)
  : Z + list srv.Service :=
  match args with
  | [] => inr []
  | arg :: args' =>
      let currentDefaultPort := goint.int (defaultPort + portOffset) in
      match parseServiceArg os Quote Atoi Itoa arg defaultAddr
                            currentDefaultPort with
      | inl _ => inl 1%Z
      | inr (shell, addr, port) =>
          let portOffset :=
            if decide (port = currentDefaultPort)
            then goint.int (portOffset + 1) else portOffset in
          match Make os Quote shell addr port expo with
          | inl _ => inl 1%Z
          | inr svc =>
              match services args' defaultAddr defaultPort portOffset expo with
              | inl code => inl code
              | inr svcs => inr (svc :: svcs)
              end
          end
      end
  end.

End flags.

End main.

(* ===================================================================== *)
(** ** Reading traces *)
(* ===================================================================== *)

(** The one-byte string ["\n"]. *)
Definition NL : string := String nl "".

(** The chunks written to the client, in order, and their concatenation:
    the bytes the client receives. *)
Definition written (tr : list Event) : list string :=
  omap (λ ev, match ev with ConnWrite data => Some data | _ => None end) tr.

Definition sent (tr : list Event) : string := concat (written tr).

(** The commands started, with the script each one was given. *)
Definition started (tr : list Event) : list (Cmd * string) :=
  omap (λ ev, match ev with Start c script => Some (c, script) | _ => None end)
       tr.

(** The contents of the file [name] after the events [tr], from the
    contents [init]: every successful [WriteString] appends. *)
Definition contents (name : string) (tr : list Event) (init : string) : string :=
  foldl (λ acc ev,
           match ev with
           | WriteString n data =>
               if decide (n = name) then acc +:+ data else acc
           | CreateTemp n => if decide (n = name) then "" else acc
           | _ => acc
           end) init tr.

(** A well-formed line, as [ReadString] returns it with a nil error. *)
Definition terminated (line : string) : Prop := ∃ b, line = b +:+ NL.

(** Where a non-nil result of the handler comes from. *)
Definition fromCreateTemp (w : World) (o : Outcome) : Prop :=
  ret o = RetNil ∨
  ∃ e k, ret o = RetErr e ∧ createTemp w k = inl e ∧
         ConnWrite (errorLine "failed to create temp file" e) ∈ trace o.

(** A string without line delimiter. *)
Fixpoint unterminated (s : string) : Prop :=
  match s with
  | EmptyString => True
  | String c s' => c ≠ nl ∧ unterminated s'
  end.

(** The lines on which a cycle that starts in AwaitMarker is still waiting
    for input when they are used up: empty marker lines only, or empty
    marker lines, the line of a marker [M], and script lines none of which
    is [M]. *)
Inductive pending (w : World) (k : nat) : list string → Prop :=
| pending_marker (j : nat) :
    pending w k (replicate j NL)
| pending_script (j : nat) (M name : string) (body : list string) :
    M ≠ "" →
    Forall (λ line, trimNewline line ≠ M) body →
    createTemp w k = inr name →
    (∀ file line, writeString w k file line = None) →
    pending w k (replicate j NL ++ (M +:+ NL) :: body).

(** The path an event names: that of the file written or closed, the
    path removed, and the script path a command is started on (its last
    argument). *)
Definition touches (ev : Event) : option string :=
  match ev with
  | WriteString name _ | Close name | Remove name => Some name
  | Start c _ => Args c !! 2
  | _ => None
  end.

(** The paths [os.CreateTemp] has returned so far, after the events
    [tr]. *)
Definition createdBy (created : list string) (tr : list Event) : list string :=
  foldl (λ cr ev, match ev with CreateTemp name => name :: cr | _ => cr end)
        created tr.

(** A trace in which every event that names a path comes after a
    creation under that path, given the paths [created] before. *)
Fixpoint scoped (created : list string) (tr : list Event) : Prop :=
  match tr with
  | [] => True
  | ev :: tr' =>
      (∀ name, touches ev = Some name → name ∈ created) ∧
      scoped (createdBy created [ev]) tr'
  end.

(** The outcome [o] with the events [evs] after it. *)
Definition followedBy (o : Outcome) (evs : list Event) : Outcome :=
  {| ret := ret o; trace := trace o ++ evs |}.

(** The world as a handler finds it that starts with cycle [n]. *)
Definition shift (n : nat) (w : World) : World :=
  {| createTemp := λ k, createTemp w (n + k);
     writeString := λ k, writeString w (n + k);
     rangeMap := λ k, rangeMap w (n + k);
     run := λ k, run w (n + k) |}.

(** The service of package [srv] that does what a service of package
    [server] does: the same command, all interfaces, no exports. *)
Definition lift (s : server.Service) : srv.Service :=
  {| srv.shell := server.shell s; srv.cmd := server.cmd s; srv.addr := "";
     srv.port := server.port s; srv.proto := server.proto s;
     srv.expo := ∅ |}.

(** The connections accepted by the iterations of the accept loop that
    come before the first one that finds the context cancelled. *)
Fixpoint acceptedBefore (ticks : list srv.Tick) : list (World * Conn) :=
  match ticks with
  | [] => []
  | t :: ticks' =>
      if srv.done t then []
      else match srv.accepted t with
           | srv.AcceptErr _ => acceptedBefore ticks'
           | srv.Accepted conn w _ => (w, conn) :: acceptedBefore ticks'
           end
  end.

(** The tasks a listener has started. *)
Definition tasks (acts : list srv.Action) : list Outcome :=
  omap (λ a, match a with srv.Go task => Some task | _ => None end) acts.

(** A string without the byte [c]. *)
Fixpoint without (c : ascii) (s : string) : Prop :=
  match s with
  | EmptyString => True
  | String x s' => x ≠ c ∧ without c s'
  end.

(** Exports whose names are free of ["="] and whose names and values are
    free of the NUL byte. *)
Definition tidy (m : gmap string string) : Prop :=
  ∀ key value, m !! key = Some value →
               without "="%char key ∧
               hasNUL key = false ∧ hasNUL value = false.

(** An environment as a process normally has it: every entry is free of
    NUL and has a name, and no two entries have the same name. *)
Definition proper (env : list string) : Prop :=
  Forall (λ kv, hasNUL kv = false ∧ is_Some (envName kv)) env ∧
  NoDup (envName <$> env).

(* ===================================================================== *)
(** ** The spool files of concurrent handlers *)
(* ===================================================================== *)

Module spool.

(** The spool files a single handler has created and not removed yet. *)
Definition liveStep (L : list string) (ev : Event) : list string :=
  match ev with
  | CreateTemp name => name :: L
  | Remove name => filter (λ n, n ≠ name) L
  | _ => L
  end.

Definition live (tr : list Event) : list string := foldl liveStep [] tr.

(** A trace along which a handler that holds the spool files [L] never
    holds more than one. *)
Fixpoint bounded (L : list string) (tr : list Event) : Prop :=
  (List.length L ≤ 1)%nat ∧
  match tr with
  | [] => True
  | ev :: tr' => bounded (liveStep L ev) tr'
  end.

(** The temporary directory shared by all handlers: the spool files that
    exist, each with the number of the connection whose handler created
    it.  [os.Remove] deletes by name, whoever created the file, and is
    taken to succeed on a file that exists. *)
Abbreviation Files := (list (string * nat)).

Definition step (fs : Files) (act : nat * Event) : Files :=
  match act with
  | (c, CreateTemp name) => (name, c) :: fs
  | (_, Remove name) => filter (λ f, f.1 ≠ name) fs
  | _ => fs
  end.

(** The directory after a run [g] of the system, an interleaving of the
    actions of the handlers, each action paired with its connection. *)
Definition after (g : list (nat * Event)) : Files := foldl step [] g.

(** The names of the files of connection [c]. *)
Definition owned (c : nat) (fs : Files) : list string :=
  (filter (λ f, f.2 = c) fs).*1.

(** The actions of connection [c] in a run. *)
Definition project (c : nat) (g : list (nat * Event)) : list Event :=
  (filter (λ a, a.1 = c) g).*2.

(** What [os.CreateTemp] guarantees by opening with [O_EXCL]: the file it
    creates did not exist. *)
Fixpoint exclusive (fs : Files) (g : list (nat * Event)) : bool :=
  match g with
  | [] => true
  | act :: g' =>
      match act.2 with
      | CreateTemp name => bool_decide (name ∉ fs.*1)
      | _ => true
      end && exclusive (step fs act) g'
  end.

(** A run of the handlers of the connections [tasks]: every handler has
    got through a part of its own trace, in order. *)
Definition schedule (tasks : list (srv.Service * World * Conn))
           (g : list (nat * Event)) : Prop :=
  ∀ c, project c g `prefix_of`
       match tasks !! c with
       | Some (s, w, conn) => trace (srv.serve s w conn)
       | None => []
       end.

(** Pairs every action of a trace with the connection [c]. *)
Definition tag (c : nat) (tr : list Event) : list (nat * Event) :=
  (λ ev, (c, ev)) <$> tr.

(** The spool files created in a run, in order: the connection and the
    name of each. *)
Definition created (g : list (nat * Event)) : list (nat * string) :=
  omap (λ a, match a.2 with
             | CreateTemp name => Some (a.1, name)
             | _ => None
             end) g.

End spool.

(* ===================================================================== *)
(** ** Sample services, worlds and connections *)
(* ===================================================================== *)

Module sample.

(** [relay -e FOO=bar sh] and [relay sh] *)
Definition withExport : srv.Service :=
  {| srv.shell := "/bin/sh"; srv.cmd := "/bin/sh"; srv.addr := "127.0.0.1";
     srv.port := 50135; srv.proto := srv.Protocol;
     srv.expo := {[ "FOO" := "bar" ]} |}.

Definition noExport : srv.Service :=
  {| srv.shell := "/bin/sh"; srv.cmd := "/bin/sh"; srv.addr := "127.0.0.1";
     srv.port := 50135; srv.proto := srv.Protocol; srv.expo := ∅ |}.

(** Exports that a caller of [srv.Make] can give (the flag [-e] binds no
    name that contains ["="]): the names [A] and [A=1]. *)
Definition sameName : srv.Service :=
  {| srv.shell := "/bin/sh"; srv.cmd := "/bin/sh"; srv.addr := "127.0.0.1";
     srv.port := 50135; srv.proto := srv.Protocol;
     srv.expo := {[ "A" := "1"; "A=1" := "x" ]} |}.

(** An export whose value holds a NUL byte. *)
Definition withNUL : srv.Service :=
  {| srv.shell := "/bin/sh"; srv.cmd := "/bin/sh"; srv.addr := "127.0.0.1";
     srv.port := 50135; srv.proto := srv.Protocol;
     srv.expo := {[ "FOO" := String "000"%char "" ]} |}.

Definition old : server.Service :=
  {| server.shell := "sh"; server.cmd := "/bin/sh"; server.port := 50135;
     server.proto := "tcp" |}.

(** A world in which nothing fails: the spool file of cycle [k] is
    [/tmp/relay-script-k], and the shell prints its script and exits with
    status zero. *)
Definition tmpName (k : nat) : string :=
  "/tmp/relay-script-" +:+ String (ascii_of_nat (48 + k)) "".

Definition calm : World :=
  {| createTemp := λ k, inr (tmpName k);
     writeString := λ _ _ _, None;
     rangeMap := λ _ kvs, kvs;
     run := λ _ _ script, Exited script "" None |}.

(** The same, with the mappings ranged over the other way round. *)
Definition backwards : World :=
  {| createTemp := λ k, inr (tmpName k);
     writeString := λ _ _ _, None;
     rangeMap := λ _ kvs, reverse kvs;
     run := λ _ _ script, Exited script "" None |}.

(** The same, but the first script exits with status 1. *)
Definition failingOnce : World :=
  {| createTemp := λ k, inr (tmpName k);
     writeString := λ _ _ _, None;
     rangeMap := λ _ kvs, kvs;
     run := λ k _ script,
       if decide (k = 0) then
         Exited script "oops" (Some (errorString "exit status 1"))
       else Exited script "" None |}.

(** A world without room for a spool file. *)
Definition noSpace : World :=
  {| createTemp := λ _, inl (errorString "no space left on device");
     writeString := λ _ _ _, None;
     rangeMap := λ _ kvs, kvs;
     run := λ _ _ script, Exited script "" None |}.

(** The upload of [echo -e "EOF\nls -la\nEOF\n" | nc localhost 50135]. *)
Definition upload : string :=
  "EOF" +:+ NL +:+ "ls -la" +:+ NL +:+ "EOF" +:+ NL.

Definition cancelled : srv.Tick :=
  {| srv.accepted :=
       srv.AcceptErr (errorString "use of closed network connection");
     srv.done := true |}.

Definition arrival : srv.Tick :=
  {| srv.accepted :=
       srv.Accepted {| input := upload; readErr := EOF |} calm
                    "127.0.0.1:40000";
     srv.done := false |}.

(** A world in which the disk is full after one line of script. *)
Definition diskFull : World :=
  {| createTemp := λ k, inr (tmpName k);
     writeString := λ _ file _,
       if decide (file = "") then None
       else Some (errorString "no space left on device");
     rangeMap := λ _ kvs, kvs;
     run := λ _ _ script, Exited script "" None |}.

(** A world in which the shell cannot be executed. *)
Definition noShell : World :=
  {| createTemp := λ k, inr (tmpName k);
     writeString := λ _ _ _, None;
     rangeMap := λ _ kvs, kvs;
     run := λ _ _ _, StartFailed (errorString "permission denied") |}.

(** A search path on which [bash] is the only shell. *)
Definition onlyBash (file : string) : error + string :=
  if decide (file = "bash") then inr "/bin/bash"
  else inl (errorString "executable file not found in $PATH").

(** [strconv.Atoi] on the three texts used below. *)
Definition atoi8080 (s : string) : error + Z :=
  if decide (s = "8080") then inr 8080%Z
  else if decide (s = "0") then inr 0%Z
  else if decide (s = "50136") then inr 50136%Z
  else inl (errorString "invalid syntax").

(** A machine with [sh] and [bash] in [/bin], which is on the search
    path, and nothing of that name in the working directory. *)
Definition unix : main.OS :=
  {| main.Stat := λ _,
       main.StatErr true (errorString "no such file or directory");
     main.LookPath := λ file,
       if decide (file = "sh") then inr "/bin/sh"
       else if decide (file = "bash") then inr "/bin/bash"
       else if decide (file = "/bin/sh") then inr "/bin/sh"
       else if decide (file = "/bin/bash") then inr "/bin/bash"
       else inl (errorString "executable file not found in $PATH");
     main.Abs := λ path, inr ("/root/" +:+ path) |}.

Definition service (path : string) (port : Z) : srv.Service :=
  {| srv.shell := path; srv.cmd := path; srv.addr := "127.0.0.1";
     srv.port := port; srv.proto := "tcp"; srv.expo := ∅ |}.

(** A machine on which the working directory cannot be searched, so that
    [os.Stat] of a relative name fails with [EACCES], while [bash] is
    installed in [/bin], which is on the search path. *)
Definition lockedDir : main.OS :=
  {| main.Stat := λ _, main.StatErr false (errorString "permission denied");
     main.LookPath := λ file,
       if decide (file = "bash") then inr "/bin/bash"
       else inl (errorString "executable file not found in $PATH");
     main.Abs := λ path, inl (errorString "getwd: permission denied") |}.

(** Two clients that upload the same script at the same time, on a
    machine that names their spool files differently, and a run in which
    the second handler works while the first one waits for its process. *)
Definition twin : World :=
  {| createTemp := λ k, inr (tmpName (5 + k));
     writeString := λ _ _ _, None;
     rangeMap := λ _ kvs, kvs;
     run := λ _ _ script, Exited script "" None |}.

Definition twins : list (srv.Service * World * Conn) :=
  [(withExport, calm, {| input := upload; readErr := EOF |});
   (withExport, twin, {| input := upload; readErr := EOF |})].

Definition twinRun : list (nat * Event) :=
  let t0 := trace (srv.serve withExport calm
                     {| input := upload; readErr := EOF |}) in
  let t1 := trace (srv.serve withExport twin
                     {| input := upload; readErr := EOF |}) in
  spool.tag 0 (take 3 t0) ++ spool.tag 1 t1 ++ spool.tag 0 (drop 3 t0).

(** A machine on which [os.CreateTemp] draws the same name each time,
    which it can once the file of that name is gone; the first script
    exits with status 1.  One client uploads two scripts, and a second
    client uploads one after the first has left. *)
Definition recycled : World :=
  {| createTemp := λ _, inr (tmpName 0);
     writeString := λ _ _ _, None;
     rangeMap := λ _ kvs, kvs;
     run := λ k _ script,
       if decide (k = 0) then
         Exited script "oops" (Some (errorString "exit status 1"))
       else Exited script "" None |}.

Definition reusers : list (srv.Service * World * Conn) :=
  [(withExport, recycled, {| input := upload +:+ upload; readErr := EOF |});
   (withExport, calm, {| input := upload; readErr := EOF |})].

Definition reuseRun : list (nat * Event) :=
  let t0 := trace (srv.serve withExport recycled
                     {| input := upload +:+ upload; readErr := EOF |}) in
  let t1 := trace (srv.serve withExport calm
                     {| input := upload; readErr := EOF |}) in
  spool.tag 0 t0 ++ spool.tag 1 t1.

(** Two clients again: the first uploads a script that fails and one that
    succeeds, the second uploads one script, for which [os.CreateTemp]
    draws the name of the first spool file of the first client.  In the
    run the second handler creates, writes and closes its spool file just
    before the first handler returns, and goes on after it. *)
Definition lateComers : list (srv.Service * World * Conn) :=
  [(withExport, failingOnce,
    {| input := upload +:+ upload; readErr := EOF |});
   (withExport, calm, {| input := upload; readErr := EOF |})].

Definition lateRun : list (nat * Event) :=
  let t0 := trace (srv.serve withExport failingOnce
                     {| input := upload +:+ upload; readErr := EOF |}) in
  let t1 := trace (srv.serve withExport calm
                     {| input := upload; readErr := EOF |}) in
  spool.tag 0 (take 17 t0) ++ spool.tag 1 (take 3 t1)
  ++ spool.tag 0 (drop 17 t0) ++ spool.tag 1 (drop 3 t1).

(** [strconv.Quote] on printable ASCII without quotes or backslashes. *)
Definition quoted (s : string) : string :=
  String (ascii_of_nat 34) s +:+ String (ascii_of_nat 34) "".

End sample.

(* ===================================================================== *)
(** * Properties *)
(* ===================================================================== *)

(** ** Strings and framing *)

Lemma len_app (a b : string) : len (a +:+ b) = len a + len b.
Proof. induction a as [|c a IH]; simpl; [done|]. unfold len in *. simpl. lia. Qed.

Lemma slice_to_0 (s : string) : slice_to s 0 = "".
Proof. by destruct s. Qed.

Lemma slice_to_app (a b : string) : slice_to (a +:+ b) (len a) = a.
Proof.
  induction a as [|c a IH]; simpl.
  - apply slice_to_0.
  - unfold slice_to, len in *. simpl. by rewrite IH.
Qed.

Lemma index_app (a : string) (c : ascii) (b : string) :
  index (a +:+ String c b) (len a) = Some c.
Proof. induction a as [|x a IH]; simpl; [done|]. apply IH. Qed.

Lemma len_line (b : string) : len (b +:+ NL) = S (len b).
Proof. rewrite len_app. unfold NL, len. simpl. lia. Qed.

(** Both ways in which the handler strips the delimiter give the line
    without it. *)
Lemma dropLast_line (b : string) :
  slice_to (b +:+ NL) (len (b +:+ NL) - 1) = b.
Proof.
  rewrite len_line. replace (S (len b) - 1) with (len b) by lia.
  apply slice_to_app.
Qed.

Lemma trimNewline_line (b : string) : trimNewline (b +:+ NL) = b.
Proof.
  unfold trimNewline. rewrite len_line.
  replace (S (len b) - 1) with (len b) by lia.
  assert (index (b +:+ NL) (len b) = Some nl) as -> by apply index_app.
  rewrite !bool_decide_eq_true_2 by (done || lia). simpl.
  apply slice_to_app.
Qed.

Lemma len_0 (s : string) : len s = 0 ↔ s = "".
Proof. destruct s; simpl; split; intros; (done || discriminate). Qed.

Lemma frame_unterminated (p : string) : unterminated p → frame p = ([], p).
Proof.
  induction p as [|c p IH]; simpl; [done|].
  intros [Hc Hp]. rewrite (IH Hp). by rewrite decide_False.
Qed.

Lemma frame_app (data p : string) :
  unterminated p →
  frame (data +:+ p) = ((frame data).1, (frame data).2 +:+ p).
Proof.
  intros Hp. induction data as [|c data IH]; simpl.
  - by rewrite frame_unterminated.
  - rewrite IH. destruct (frame data) as [ls q]. simpl.
    destruct (decide (c = nl)); [done|]. by destruct ls.
Qed.

(** Every framed line is some bytes without delimiter followed by the
    delimiter, the rest has no delimiter, and nothing is lost. *)
Lemma frame_lines (s : string) :
  Forall (λ line, ∃ b, line = b +:+ NL ∧ unterminated b) (frame s).1.
Proof.
  induction s as [|c s IH]; simpl; [constructor|].
  destruct (frame s) as [ls p]. simpl in *.
  destruct (decide (c = nl)) as [->|Hc].
  - constructor; [|done]. by exists "".
  - destruct ls as [|l ls]; [constructor|].
    inversion IH as [|? ? (b & -> & Hb) Hls]; subst.
    constructor; [|done]. by exists (String c b).
Qed.

Lemma frame_rest (s : string) : unterminated (frame s).2.
Proof.
  induction s as [|c s IH]; simpl; [done|].
  destruct (frame s) as [ls p]. simpl in *.
  destruct (decide (c = nl)); [done|]. by destruct ls.
Qed.

Lemma frame_concat (s : string) : concat (frame s).1 +:+ (frame s).2 = s.
Proof.
  induction s as [|c s IH]; simpl; [done|].
  destruct (frame s) as [ls p]. simpl in *.
  destruct (decide (c = nl)) as [->|Hc]; simpl; [by rewrite <- IH|].
  destruct ls; simpl in *; by rewrite <- IH.
Qed.

(** [ReadString] returns an error exactly when the data does not end in
    the delimiter, as bufio documents. *)
Lemma ReadString_NewReader (conn : Conn) :
  match (ReadString (NewReader conn)).1 with
  | (line, None) => ∃ b, line = b +:+ NL ∧ unterminated b
  | (data, Some e) => unterminated data ∧ e = readErr conn
  end.
Proof.
  unfold ReadString, NewReader. simpl.
  pose proof (frame_lines (input conn)) as Hl.
  pose proof (frame_rest (input conn)) as Hr.
  destruct (frame (input conn)) as [[|l ls] p]; simpl in *; [done|].
  by inversion Hl.
Qed.

(** ** The connection handler *)

Import srv.

Lemma ret_prepend (evs : list Event) (o : Outcome) : ret (evs +> o) = ret o.
Proof. done. Qed.

Lemma trace_prepend (evs : list Event) (o : Outcome) :
  trace (evs +> o) = evs ++ trace o.
Proof. done. Qed.

Lemma prepend_nil (o : Outcome) : [] +> o = o.
Proof. by destruct o. Qed.

Lemma prepend_app (evs evs' : list Event) (o : Outcome) :
  (evs ++ evs') +> o = evs +> evs' +> o.
Proof. unfold prepend. simpl. by rewrite app_assoc. Qed.

Lemma frame_terminated (s : string) : Forall terminated (frame s).1.
Proof.
  eapply Forall_impl; [apply frame_lines|].
  intros line (b & -> & _). by exists b.
Qed.

Lemma terminated_len (line : string) : terminated line → len line ≠ 0.
Proof. intros [b ->]. rewrite len_line. lia. Qed.

(** The decision of [execute] never returns an error. *)
Lemma execute_next (s : Service) (w : World) (k : nat) (name file : string) :
  (execute s w k name file).2 = Continue ∨
  (execute s w k name file).2 = Return RetNil.
Proof.
  unfold execute. destruct (run w k _ file) as [e|out er [e|]]; simpl; auto.
Qed.

(** The handler does not look at the data that comes with a read error. *)
Lemma loops_rest (s : Service) (w : World) (r1 r2 : string) (err : error)
      (ls : list string) :
  (∀ k defers, awaitMarker s w r1 err k defers ls
               = awaitMarker s w r2 err k defers ls) ∧
  (∀ k name defers M file,
      receiveScript s w r1 err k name defers M file ls
      = receiveScript s w r2 err k name defers M file ls).
Proof.
  induction ls as [|line ls [IHa IHr]]; [done|].
  split.
  - intros k defers. simpl.
    repeat case_bool_decide; auto.
    all: destruct (createTemp w k); auto; by rewrite IHr.
  - intros k name defers M file. simpl.
    case_bool_decide.
    + destruct (execute s w k name file) as [evs [|r]]; [|done].
      by rewrite IHa.
    + destruct (writeString w k file line); [done|]. by rewrite IHr.
Qed.

Lemma fromCreateTemp_prepend (w : World) (evs : list Event) (o : Outcome) :
  fromCreateTemp w o → fromCreateTemp w (evs +> o).
Proof.
  intros [H|(e & k & H1 & H2 & H3)]; [by left|right].
  exists e, k. split_and!; [done..|]. rewrite trace_prepend. set_solver.
Qed.

Lemma loops_ret (s : Service) (w : World) (rest : string) (err : error)
      (ls : list string) :
  Forall terminated ls →
  (∀ k defers, fromCreateTemp w (awaitMarker s w rest err k defers ls)) ∧
  (∀ k name defers M file,
      fromCreateTemp w (receiveScript s w rest err k name defers M file ls)).
Proof.
  induction 1 as [|line ls Hline Hls [IHa IHr]].
  - split; intros; by left.
  - split.
    + intros k defers. simpl.
      rewrite bool_decide_eq_false_2 by by apply terminated_len.
      case_bool_decide; [apply IHa|].
      destruct (createTemp w k) as [e|name] eqn:Hc.
      * right. exists e, k. split_and!; [done..|].
        rewrite trace_prepend. set_solver.
      * apply fromCreateTemp_prepend, IHr.
    + intros k name defers M file. simpl.
      case_bool_decide.
      * pose proof (execute_next s w k name file) as Hn.
        destruct (execute s w k name file) as [evs nxt]. simpl in Hn.
        destruct Hn as [-> | ->].
        -- apply fromCreateTemp_prepend, IHa.
        -- by left.
      * destruct (writeString w k file line); [by left|].
        apply fromCreateTemp_prepend, IHr.
Qed.

(** C9.  [HandleConnection] returns a non-nil error only when
    [os.CreateTemp] failed, and then it is that error, reported to the
    client as "failed to create temp file"; in a world where creating the
    spool file never fails the handler returns nil whatever else goes
    wrong.  The listener returns an error only if [Listen] failed: the
    results of the handlers, kept by the error group, never reach its
    caller. *)
Theorem HandleConnection_error_only_from_CreateTemp
        (s : Service) (w : World) (conn : Conn) :
  let o := HandleConnection s w conn in
  (ret o = RetNil ∨
   ∃ e k, ret o = RetErr e ∧ createTemp w k = inl e ∧
          ConnWrite (errorLine "failed to create temp file" e) ∈ trace o) ∧
  ((∀ k, ∃ name, createTemp w k = inr name) → ret o = RetNil) ∧
  (∀ listen ticks e,
      (ListenAndServe s listen ticks).1 = Returned (Some e) → listen = Some e).
Proof.
  intros o.
  assert (fromCreateTemp w o) as Ho.
  { apply (loops_ret s w), frame_terminated. }
  split_and!.
  - exact Ho.
  - intros Hw. destruct Ho as [Ho|(e & k & _ & Hk & _)]; [done|].
    destruct (Hw k) as [name Hname]. congruence.
  - intros [e'|] ticks e; simpl; [congruence|].
    assert (∀ ts, (acceptLoop s ts).1 ≠ Returned (Some e)) as Hloop.
    { induction ts as [|t ts IH]; simpl; [done|].
      destruct (done t); [done|].
      destruct (accepted t), (acceptLoop s ts); simpl in *; done. }
    specialize (Hloop ticks). destruct (acceptLoop s ticks). simpl in *. done.
Qed.

(** C10.  When the stream ends in the middle of a line, the handler does
    exactly what it does when the unterminated bytes [p] are not sent at
    all: they are not compared with the marker, not spooled, and start
    nothing; the connection is closed as on a clean end of stream. *)
Theorem partial_line_discarded
        (s : Service) (w : World) (data p : string) :
  unterminated p →
  HandleConnection s w {| input := data +:+ p; readErr := EOF |}
  = HandleConnection s w {| input := data; readErr := EOF |} ∧
  serve s w {| input := data +:+ p; readErr := EOF |}
  = serve s w {| input := data; readErr := EOF |}.
Proof.
  intros Hp.
  assert (HandleConnection s w {| input := data +:+ p; readErr := EOF |}
          = HandleConnection s w {| input := data; readErr := EOF |}) as H.
  { unfold HandleConnection, NewReader. simpl. rewrite (frame_app _ _ Hp).
    simpl. apply loops_rest. }
  split; [done|]. unfold serve. by rewrite H.
Qed.

Lemma partial_line_discarded_witness :
  unterminated "EOF" ∧
  HandleConnection sample.withExport sample.calm
    {| input := ("EOF" +:+ NL +:+ "ls -la" +:+ NL) +:+ "EOF"; readErr := EOF |}
  = HandleConnection sample.withExport sample.calm
    {| input := "EOF" +:+ NL +:+ "ls -la" +:+ NL; readErr := EOF |}.
Proof.
  split.
  - repeat split; discriminate.
  - apply (partial_line_discarded sample.withExport sample.calm
             ("EOF" +:+ NL +:+ "ls -la" +:+ NL) "EOF").
    repeat split; discriminate.
Defined.

(** ** The listener loop *)

Lemma acceptLoop_cancelled (s : Service) (before : list Tick)
      (inflight inflight' : Accept) (after after' : list Tick) :
  (acceptLoop s (before ++ {| accepted := inflight; done := true |} :: after)).1
  = Returned None ∧
  acceptLoop s (before ++ {| accepted := inflight; done := true |} :: after)
  = acceptLoop s (before ++ {| accepted := inflight'; done := true |} :: after').
Proof.
  induction before as [|t ts [IH1 IH2]]; simpl; [done|].
  destruct (done t); [done|]. split.
  - destruct (accepted t), (acceptLoop s _); simpl in *; done.
  - by rewrite IH2.
Qed.

(** C5.  Once an iteration of the accept loop finds the context
    cancelled, [ListenAndServe] returns nil, whatever happened in the
    iterations before; and what [ln.Accept()] returned in that iteration,
    an error or a connection, makes no difference to anything the
    listener does. *)
Theorem ListenAndServe_cancelled
        (s : Service) (before : list Tick) (inflight : Accept)
        (after : list Tick) :
  (ListenAndServe s None
     (before ++ {| accepted := inflight; done := true |} :: after)).1
  = Returned None ∧
  ∀ inflight' after',
    ListenAndServe s None
      (before ++ {| accepted := inflight; done := true |} :: after)
    = ListenAndServe s None
        (before ++ {| accepted := inflight'; done := true |} :: after').
Proof.
  split.
  - simpl.
    pose proof (proj1 (acceptLoop_cancelled s before inflight inflight
                         after after)) as H.
    destruct (acceptLoop s _). simpl in *. by subst.
  - intros inflight' after'. simpl.
    by rewrite (proj2 (acceptLoop_cancelled s before inflight inflight'
                         after after')).
Qed.

(** A connection is served, then the context is cancelled while the next
    [Accept] is pending: the listener logs the shutdown, closes its socket
    and returns nil. *)
Example listener_shutdown :
  ListenAndServe sample.withExport None
                 [sample.arrival; sample.cancelled; sample.arrival]
  = (Returned None,
     [Logged LevelInfo "state changed" [("state", "listening")];
      Logged LevelInfo "accepted connection" [("source", "127.0.0.1:40000")];
      Go (serve sample.withExport sample.calm
                {| input := sample.upload; readErr := EOF |});
      Logged LevelInfo "state changed" [("state", "shutdown")];
      LnClose]).
Proof. reflexivity. Qed.

(** ** One cycle of the protocol *)

Section cycle.

Variable s : Service.
Variable w : World.
Variable rest : string.
Variable err : error.

Lemma awaitMarker_cons (k : nat) (defers : list string) (line : string)
      (ls : list string) :
  awaitMarker s w rest err k defers (line :: ls) =
  if bool_decide (len line = 0) then returning defers Panic
  else if bool_decide (len (slice_to line (len line - 1)) = 0) then
    awaitMarker s w rest err k defers ls
  else match createTemp w k with
       | inl e =>
           report LevelError "failed to create temp file" e
           +> returning defers (RetErr e)
       | inr name =>
           [CreateTemp name]
           +> receiveScript s w rest err k name (name :: defers)
                (slice_to line (len line - 1)) "" ls
       end.
Proof. reflexivity. Qed.

Lemma receiveScript_cons (k : nat) (name : string) (defers : list string)
      (M file line : string) (ls : list string) :
  receiveScript s w rest err k name defers M file (line :: ls) =
  if bool_decide (trimNewline line = M) then
    match execute s w k name file with
    | (evs, Return r) => evs +> returning defers r
    | (evs, Continue) => evs +> awaitMarker s w rest err (S k) defers ls
    end
  else match writeString w k file line with
       | Some e =>
           report LevelWarn "failed to write script" e
           +> returning defers RetNil
       | None =>
           [WriteString name line]
           +> receiveScript s w rest err k name defers M (file +:+ line) ls
       end.
Proof. reflexivity. Qed.

(** An empty marker line is skipped: the handler stays in AwaitMarker. *)
Lemma awaitMarker_empty (k : nat) (defers : list string) (j : nat)
      (ls : list string) :
  awaitMarker s w rest err k defers (replicate j NL ++ ls)
  = awaitMarker s w rest err k defers ls.
Proof. induction j as [|j IH]; [done|]. simpl replicate. exact IH. Qed.

(** A non-empty first line becomes the marker of a new cycle. *)
Lemma awaitMarker_marker (k : nat) (defers : list string) (M : string)
      (ls : list string) :
  M ≠ "" →
  awaitMarker s w rest err k defers ((M +:+ NL) :: ls) =
  match createTemp w k with
  | inl e =>
      report LevelError "failed to create temp file" e
      +> returning defers (RetErr e)
  | inr name =>
      [CreateTemp name]
      +> receiveScript s w rest err k name (name :: defers) M "" ls
  end.
Proof.
  intros HM. rewrite awaitMarker_cons, dropLast_line.
  rewrite bool_decide_eq_false_2 by (rewrite len_line; lia).
  rewrite bool_decide_eq_false_2 by by rewrite len_0.
  done.
Qed.

Lemma append_assoc (a b c : string) : (a +:+ b) +:+ c = a +:+ b +:+ c.
Proof.
  induction a as [|x a IH]; [done|].
  change (String x ((a +:+ b) +:+ c) = String x (a +:+ b +:+ c)).
  by rewrite IH.
Qed.

Lemma append_nil_r (a : string) : a +:+ "" = a.
Proof.
  induction a as [|x a IH]; [done|].
  change (String x (a +:+ "") = String x a). by rewrite IH.
Qed.

Lemma concat_app (l1 l2 : list string) :
  concat (l1 ++ l2) = concat l1 +:+ concat l2.
Proof.
  induction l1 as [|x l1 IH]; simpl; [done|].
  by rewrite IH, append_assoc.
Qed.

(** While the marker does not come back and the writes succeed, every line
    is appended to the spool file as it is. *)
Lemma receiveScript_body (k : nat) (name : string) (defers : list string)
      (M : string) (body : list string) :
  Forall (λ line, trimNewline line ≠ M) body →
  (∀ file line, writeString w k file line = None) →
  ∀ file ls,
    receiveScript s w rest err k name defers M file (body ++ ls)
    = (WriteString name <$> body)
      +> receiveScript s w rest err k name defers M (file +:+ concat body) ls.
Proof.
  intros Hbody Hw. induction Hbody as [|line body Hline _ IH]; intros file ls.
  - simpl. by rewrite append_nil_r, prepend_nil.
  - simpl app. rewrite receiveScript_cons.
    rewrite bool_decide_eq_false_2 by done. rewrite Hw, IH.
    simpl concat. by rewrite append_assoc.
Qed.

End cycle.

(** *** Reading the trace of a cycle *)

Lemma written_app (t1 t2 : list Event) :
  written (t1 ++ t2) = written t1 ++ written t2.
Proof. apply omap_app. Qed.

Lemma started_app (t1 t2 : list Event) :
  started (t1 ++ t2) = started t1 ++ started t2.
Proof. apply omap_app. Qed.

Lemma written_WriteString (name : string) (body : list string) :
  written (WriteString name <$> body) = [].
Proof. by induction body. Qed.

Lemma started_WriteString (name : string) (body : list string) :
  started (WriteString name <$> body) = [].
Proof. by induction body. Qed.

Lemma written_Remove (defers : list string) : written (Remove <$> defers) = [].
Proof. by induction defers. Qed.

Lemma started_Remove (defers : list string) : started (Remove <$> defers) = [].
Proof. by induction defers. Qed.

Lemma contents_WriteString (name : string) (body : list string) (init : string) :
  contents name (WriteString name <$> body) init = init +:+ concat body.
Proof.
  revert init. induction body as [|line body IH]; intros init; simpl.
  - by rewrite append_nil_r.
  - unfold contents in *. simpl. rewrite decide_True by done.
    by rewrite IH, append_assoc.
Qed.

Lemma contents_CreateTemp (name : string) (tr : list Event) (init : string) :
  contents name (CreateTemp name :: tr) init = contents name tr "".
Proof. unfold contents. simpl. by rewrite decide_True. Qed.

(** C3.  In a cycle with marker [M] whose spool file is created and
    written without failure, the lines written to the spool file are
    exactly the lines [body] received after the marker line and before the
    first line [closing] that equals [M] once its newline is stripped, each
    as received; [closing] is not written; and the interpreter is run on a
    file whose contents are the concatenation of [body]. *)
Theorem spool_is_script_body
        (s : Service) (w : World) (rest : string) (err : error) (k : nat)
        (defers : list string) (M name : string) (body : list string)
        (closing : string) (more : list string) :
  M ≠ "" →
  createTemp w k = inr name →
  (∀ file line, writeString w k file line = None) →
  Forall (λ line, trimNewline line ≠ M) body →
  trimNewline closing = M →
  let o := awaitMarker s w rest err k defers
             ((M +:+ NL) :: body ++ closing :: more) in
  let spool := CreateTemp name :: (WriteString name <$> body) in
  contents name spool "" = concat body ∧
  (∃ o', o = (spool ++ (execute s w k name (concat body)).1) +> o') ∧
  (∀ out er cmdErr,
      run w k (command s w k name) (concat body) = Exited out er cmdErr →
      head (started (trace o)) = Some (command s w k name, concat body)).
Proof.
  intros HM Hc Hw Hbody Hclosing o spool.
  assert (o = spool +>
              match execute s w k name (concat body) with
              | (evs, Return r) => evs +> returning (name :: defers) r
              | (evs, Continue) =>
                  evs +> awaitMarker s w rest err (S k) (name :: defers) more
              end) as Ho.
  { unfold o, spool. rewrite awaitMarker_marker, Hc by done.
    rewrite (receiveScript_body _ _ _ _ _ _ _ _ _ Hbody Hw).
    rewrite receiveScript_cons, bool_decide_eq_true_2 by done.
    done. }
  split_and!.
  - unfold spool. by rewrite contents_CreateTemp, contents_WriteString.
  - rewrite Ho. destruct (execute s w k name (concat body)) as [evs [|r]];
      [exists (awaitMarker s w rest err (S k) (name :: defers) more)
      |exists (returning (name :: defers) r)];
      by rewrite prepend_app.
  - intros out er cmdErr Hrun. rewrite Ho.
    unfold execute. rewrite Hrun. unfold spool.
    destruct cmdErr; simpl; rewrite started_app, started_WriteString; done.
Qed.

Lemma spool_is_script_body_witness :
  head (started (trace (awaitMarker sample.withExport sample.calm "" EOF 0 []
                          (("EOF" +:+ NL)
                           :: ["ls -la" +:+ NL; "pwd" +:+ NL]
                           ++ ("EOF" +:+ NL) :: []))))
  = Some (command sample.withExport sample.calm 0 (sample.tmpName 0),
          concat ["ls -la" +:+ NL; "pwd" +:+ NL]).
Proof.
  refine (proj2 (proj2 (spool_is_script_body sample.withExport sample.calm ""
            EOF 0 [] "EOF" (sample.tmpName 0)
            ["ls -la" +:+ NL; "pwd" +:+ NL] ("EOF" +:+ NL) []
            _ _ _ _ _)) ("ls -la" +:+ NL +:+ "pwd" +:+ NL) "" None _).
  - discriminate.
  - reflexivity.
  - reflexivity.
  - repeat constructor; vm_compute; discriminate.
  - reflexivity.
  - reflexivity.
Defined.

(** C2.  When the marker comes back and the process has run: after a
    failure status the handler writes the line "error: script execution
    failed: ..." to the client and is in AwaitMarker again, on the same
    connection, with the input that follows; after a success the handler
    returns nil with nothing but its deferred removals left to do, so that
    whatever else the client sent is never read. *)
Theorem decision_after_execution
        (s : Service) (w : World) (rest : string) (err : error) (k : nat)
        (name : string) (defers : list string) (M file closing : string)
        (more : list string) (out er : string) (cmdErr : option error) :
  trimNewline closing = M →
  run w k (command s w k name) file = Exited out er cmdErr →
  let o := receiveScript s w rest err k name defers M file (closing :: more) in
  match cmdErr with
  | Some e =>
      ∃ evs,
        o = (evs ++ [ConnWrite (errorLine "script execution failed" e);
                     Log LevelWarn "script execution failed"
                         [("error", Error e)]])
            +> awaitMarker s w rest err (S k) defers more
  | None =>
      ∃ evs,
        o = (evs ++ [Log LevelInfo "script executed successfully" []])
            +> returning defers RetNil ∧
        ret o = RetNil ∧
        started (trace o) = [(command s w k name, file)] ∧
        ∀ more', receiveScript s w rest err k name defers M file
                   (closing :: more') = o
  end.
Proof.
  intros Hclosing Hrun o. unfold o. destruct cmdErr as [e|].
  - rewrite receiveScript_cons, bool_decide_eq_true_2 by done.
    unfold execute. rewrite Hrun. eexists. reflexivity.
  - eexists. split_and!.
    + rewrite receiveScript_cons, bool_decide_eq_true_2 by done.
      unfold execute. rewrite Hrun. reflexivity.
    + rewrite receiveScript_cons, bool_decide_eq_true_2 by done.
      unfold execute. by rewrite Hrun.
    + rewrite receiveScript_cons, bool_decide_eq_true_2 by done.
      unfold execute. rewrite Hrun, trace_prepend.
      change (trace (returning defers RetNil)) with (Remove <$> defers).
      rewrite started_app, started_Remove.
      repeat case_bool_decide; reflexivity.
    + intros more'. rewrite !receiveScript_cons, bool_decide_eq_true_2 by done.
      unfold execute. by rewrite Hrun.
Qed.

Lemma decision_after_execution_witness :
  (∃ evs,
      receiveScript sample.withExport sample.failingOnce "" EOF 0
        (sample.tmpName 0) [sample.tmpName 0] "EOF" ("exit 1" +:+ NL)
        (("EOF" +:+ NL) :: [sample.upload])
      = (evs ++ [ConnWrite (errorLine "script execution failed"
                              (errorString "exit status 1"));
                 Log LevelWarn "script execution failed"
                     [("error", "exit status 1")]])
        +> awaitMarker sample.withExport sample.failingOnce "" EOF 1
             [sample.tmpName 0] [sample.upload]).
Proof.
  refine (decision_after_execution sample.withExport sample.failingOnce ""
            EOF 0 (sample.tmpName 0) [sample.tmpName 0] "EOF"
            ("exit 1" +:+ NL) ("EOF" +:+ NL) [sample.upload]
            ("exit 1" +:+ NL) "oops" (Some (errorString "exit status 1"))
            _ _).
  - reflexivity.
  - reflexivity.
Defined.

(** C6.  After a process has run, the client is sent the captured
    standard output, then the captured standard error, each in one write
    and only if it is not empty (then the error line, if the process
    failed): the bytes received are the output followed by the errors. *)
Theorem relay_stdout_then_stderr
        (s : Service) (w : World) (k : nat) (name file out er : string)
        (cmdErr : option error) :
  run w k (command s w k name) file = Exited out er cmdErr →
  let evs := (execute s w k name file).1 in
  let failure :=
    match cmdErr with
    | Some e => [errorLine "script execution failed" e]
    | None => []
    end in
  written evs
  = (if decide (out = "") then [] else [out]) ++
    (if decide (er = "") then [] else [er]) ++ failure ∧
  sent evs = out +:+ er +:+ concat failure.
Proof.
  intros Hrun evs failure. unfold evs, failure, execute. rewrite Hrun.
  assert (∀ x : string, bool_decide (0 < len x) = bool_decide (x ≠ "")) as Hlen.
  { intros x. apply bool_decide_ext. rewrite <- len_0. lia. }
  rewrite !Hlen. unfold sent.
  destruct cmdErr as [e|]; simpl;
    repeat case_bool_decide; repeat case_decide; subst; try done;
    simpl; by rewrite ?append_nil_r.
Qed.

Lemma relay_stdout_then_stderr_witness :
  sent (execute sample.withExport sample.failingOnce 0 (sample.tmpName 0)
          ("exit 1" +:+ NL)).1
  = ("exit 1" +:+ NL) +:+ "oops"
    +:+ concat [errorLine "script execution failed"
                  (errorString "exit status 1")].
Proof.
  refine (proj2 (relay_stdout_then_stderr sample.withExport
            sample.failingOnce 0 (sample.tmpName 0) ("exit 1" +:+ NL)
            ("exit 1" +:+ NL) "oops" (Some (errorString "exit status 1")) _)).
  reflexivity.
Defined.

(** C4.  When a read fails before the closing marker of the cycle has
    been received, the handler returns nil (its caller then closes the
    connection) without having started a process in that cycle; it writes
    nothing to the client when the failure is [io.EOF], and at most one
    line, an error line about [err], otherwise. *)
Theorem read_failure_closes
        (s : Service) (w : World) (rest : string) (err : error) (k : nat)
        (defers : list string) (ls : list string) :
  pending w k ls →
  let o := awaitMarker s w rest err k defers ls in
  ret o = RetNil ∧
  started (trace o) = [] ∧
  (err = EOF → written (trace o) = []) ∧
  (List.length (written (trace o)) ≤ 1)%nat ∧
  (∀ line, line ∈ written (trace o) → ∃ what, line = errorLine what err).
Proof.
  intros Hp o. unfold o. clear o.
  destruct Hp as [j|j M name body HM Hbody Hc Hw].
  - rewrite <- (app_nil_r (replicate j NL)), awaitMarker_empty. simpl.
    destruct (errors_Is_EOF err) eqn:Heof; simpl;
      rewrite ?written_Remove, ?started_Remove.
    + split_and!; [done..| simpl; lia | set_solver].
    + split_and!; [done|done| |done|].
      * intros ->. done.
      * intros line ->%list_elem_of_singleton. by eexists.
  - rewrite awaitMarker_empty, awaitMarker_marker, Hc by done.
    rewrite <- (app_nil_r body), (receiveScript_body _ _ _ _ _ _ _ _ _ Hbody Hw).
    simpl receiveScript. rewrite !ret_prepend, !trace_prepend. simpl ret.
    change (trace (returning (name :: defers) RetNil))
      with (Remove <$> (name :: defers)).
    rewrite !written_app, !started_app.
    rewrite written_WriteString, started_WriteString.
    rewrite written_Remove, started_Remove.
    case_bool_decide as Heof; simpl.
    + split_and!; [done|done| |done|].
      * intros ->. done.
      * intros line ->%list_elem_of_singleton. by eexists.
    + split_and!; [done..| lia | set_solver].
Qed.

Lemma read_failure_closes_witness :
  pending sample.calm 0 (replicate 1 NL ++ ("EOF" +:+ NL) :: ["ls -la" +:+ NL]) ∧
  written (trace (awaitMarker sample.withExport sample.calm "EO" EOF 0 []
                    (replicate 1 NL ++ ("EOF" +:+ NL) :: ["ls -la" +:+ NL])))
  = [].
Proof.
  assert (pending sample.calm 0
            (replicate 1 NL ++ ("EOF" +:+ NL) :: ["ls -la" +:+ NL])) as Hp.
  { apply (pending_script sample.calm 0 1 "EOF" (sample.tmpName 0)).
    - discriminate.
    - repeat constructor. vm_compute. discriminate.
    - reflexivity.
    - reflexivity. }
  split; [exact Hp|].
  exact (proj1 (proj2 (proj2 (read_failure_closes sample.withExport
           sample.calm "EO" EOF 0 [] _ Hp))) eq_refl).
Defined.

(** ** The environment of the spawned process *)

(** *** What os/exec keeps of a list of entries *)

Lemma dedupLoop_cons (kv : string) (env : list string) :
  dedupLoop (kv :: env) = dedupStep (dedupLoop env) kv.
Proof. unfold dedupLoop. by rewrite reverse_cons, foldl_app. Qed.

(** The loop, read from the first entry on: an entry is dropped when it
    holds a NUL, when it is empty, or when its name has been seen among
    the entries after it. *)
Lemma dedupEnv_cons (kv : string) (env : list string) :
  dedupEnv (kv :: env)
  = if hasNUL kv then ((dedupEnv env).1, Some NULerr)
    else
      let kept := (kv :: (dedupEnv env).1, (dedupEnv env).2) in
      match envName kv with
      | None => if decide (kv = "") then dedupEnv env else kept
      | Some k => if decide (k ∈ (dedupLoop env).1.2) then dedupEnv env
                  else kept
      end.
Proof.
  unfold dedupEnv. rewrite dedupLoop_cons.
  destruct (dedupLoop env) as [[out saw] err]. unfold dedupStep.
  destruct (hasNUL kv); [done|]. cbn [fst snd].
  destruct (envName kv) as [k|].
  - destruct (decide (k ∈ saw)); [done|]. by rewrite reverse_snoc.
  - destruct (decide (kv = "")); [done|]. by rewrite reverse_snoc.
Qed.

(** The names seen are those of the entries without NUL. *)
Lemma dedupLoop_saw (env : list string) (k : string) :
  k ∈ (dedupLoop env).1.2
  ↔ ∃ kv, kv ∈ env ∧ hasNUL kv = false ∧ envName kv = Some k.
Proof.
  induction env as [|kv env IH].
  - cbn. split; [set_solver|]. intros (kv & H & _). by apply elem_of_nil in H.
  - rewrite dedupLoop_cons.
    destruct (dedupLoop env) as [[out saw] err]. cbn [fst snd] in IH.
    unfold dedupStep.
    assert ((∃ kv0, kv0 ∈ kv :: env ∧ hasNUL kv0 = false
                    ∧ envName kv0 = Some k)
            ↔ (hasNUL kv = false ∧ envName kv = Some k) ∨ k ∈ saw) as ->.
    { rewrite IH. split.
      - intros (kv0 & [->|Hin]%elem_of_cons & Hn & He); [by left|].
        right. by exists kv0.
      - intros [[Hn He]|(kv0 & Hin & Hn & He)].
        + exists kv. split; [by left|done].
        + exists kv0. split; [by right|done]. }
    destruct (hasNUL kv); cbn [fst snd]; [naive_solver|].
    destruct (envName kv) as [k'|].
    + destruct (decide (k' ∈ saw)); cbn [fst snd].
      * split; [by right|]. intros [[_ [= <-]]|H]; done.
      * rewrite elem_of_union, elem_of_singleton. naive_solver.
    + destruct (decide (kv = "")); cbn [fst snd]; naive_solver.
Qed.

(** Nothing is added and the order is kept. *)
Lemma dedupEnv_sublist (env : list string) : (dedupEnv env).1 `sublist_of` env.
Proof.
  induction env as [|kv env IH]; [done|].
  rewrite dedupEnv_cons.
  destruct (hasNUL kv); cbn [fst]; [by apply sublist_cons|].
  destruct (envName kv) as [k|]; repeat case_decide; cbn [fst];
    (by apply sublist_cons) || (by apply sublist_skip).
Qed.

Lemma dedupEnv_clean (env : list string) :
  Forall (λ kv, hasNUL kv = false) (dedupEnv env).1.
Proof.
  induction env as [|kv env IH]; [done|].
  rewrite dedupEnv_cons.
  destruct (hasNUL kv) eqn:Hn; cbn [fst]; [done|].
  destruct (envName kv) as [k|]; repeat case_decide; cbn [fst];
    done || by constructor.
Qed.

(** The error is that of an entry with a NUL. *)
Lemma dedupEnv_err (env : list string) :
  (dedupEnv env).2 = None ↔ Forall (λ kv, hasNUL kv = false) env.
Proof.
  induction env as [|kv env IH]; [done|].
  rewrite dedupEnv_cons, Forall_cons.
  destruct (hasNUL kv) eqn:Hn; cbn [snd]; [naive_solver|].
  destruct (envName kv) as [k|]; repeat case_decide; cbn [snd];
    naive_solver.
Qed.

(** No name is left twice. *)
Lemma dedupEnv_NoDup (env : list string) :
  NoDup (omap envName (dedupEnv env).1).
Proof.
  induction env as [|kv env IH]; [constructor|].
  rewrite dedupEnv_cons.
  destruct (hasNUL kv) eqn:Hn; cbn [fst]; [done|].
  destruct (envName kv) as [k|] eqn:Hk; repeat case_decide; cbn [fst]; try done.
  - cbn. rewrite Hk. constructor; [|done].
    intros (kv' & Hin & Hk')%list_elem_of_omap.
    match goal with H : k ∉ _ |- _ => apply H end.
    apply dedupLoop_saw.
    pose proof (dedupEnv_clean env) as Hc. rewrite Forall_forall in Hc.
    exists kv'. split_and!; [|by apply Hc|done].
    by eapply elem_of_sublist; [|apply dedupEnv_sublist].
  - cbn. by rewrite Hk.
Qed.

(** Of the entries with one name, the last one is kept. *)
Lemma dedupEnv_last (before after : list string) (kv : string) :
  hasNUL kv = false → is_Some (envName kv) →
  Forall (λ later, hasNUL later = false → envName later ≠ envName kv) after →
  kv ∈ (dedupEnv (before ++ kv :: after)).1.
Proof.
  intros Hn [k Hk] Hafter. induction before as [|x before IH].
  - simpl. rewrite dedupEnv_cons, Hn, Hk. cbn zeta.
    rewrite decide_False; [by left|].
    rewrite dedupLoop_saw. intros (kv' & Hin & Hn' & Hk').
    rewrite Forall_forall in Hafter. apply (Hafter kv' Hin Hn'). congruence.
  - change ((x :: before) ++ kv :: after) with (x :: before ++ kv :: after).
    rewrite dedupEnv_cons.
    destruct (hasNUL x); cbn [fst]; [done|].
    destruct (envName x); repeat case_decide; cbn [fst]; done || by right.
Qed.

(** A proper environment is left as it is. *)
Lemma dedupEnv_proper (env : list string) :
  proper env → dedupEnv env = (env, None).
Proof.
  intros [Hall Hnd]. induction env as [|kv env IH]; [done|].
  apply Forall_cons in Hall as [[Hn [k Hk]] Hall].
  rewrite fmap_cons in Hnd. apply NoDup_cons in Hnd as [Hnotin Hnd].
  rewrite dedupEnv_cons, Hn, Hk, (IH Hall Hnd). cbn zeta.
  rewrite decide_False; [done|].
  rewrite dedupLoop_saw. intros (kv' & Hin & _ & Hk').
  apply Hnotin. rewrite Hk, <- Hk'. apply list_elem_of_fmap. by exists kv'.
Qed.

(** *** The entries built from the exports *)

Lemma IndexByte_without (s : string) (c : ascii) :
  without c s → IndexByte s c = None.
Proof.
  induction s as [|x s IH]; [done|]. intros [Hx Hs]. cbn [IndexByte].
  by rewrite decide_False, (IH Hs).
Qed.

Lemma IndexByte_app_without (a rest : string) (c : ascii) :
  without c a → IndexByte (a +:+ String c rest) c = Some (len a).
Proof.
  induction a as [|x a IH].
  - intros _. change ("" +:+ String c rest) with (String c rest). cbn [IndexByte].
    by rewrite decide_True.
  - intros [Hx Ha].
    change (String x a +:+ String c rest) with (String x (a +:+ String c rest)).
    cbn [IndexByte]. by rewrite decide_False, (IH Ha).
Qed.

Lemma IndexByte_app_None (a b : string) (c : ascii) :
  IndexByte (a +:+ b) c = None ↔ IndexByte a c = None ∧ IndexByte b c = None.
Proof.
  induction a as [|x a IH].
  - change ("" +:+ b) with b. naive_solver.
  - change (String x a +:+ b) with (String x (a +:+ b)). cbn [IndexByte].
    destruct (decide (x = c)); [naive_solver|].
    rewrite !fmap_None. exact IH.
Qed.

Lemma hasNUL_false (s : string) :
  hasNUL s = false ↔ IndexByte s "000"%char = None.
Proof.
  unfold hasNUL. rewrite bool_decide_eq_false.
  destruct (IndexByte s "000"%char); naive_solver.
Qed.

Lemma hasNUL_assignment (key value : string) :
  hasNUL key = false → hasNUL value = false →
  hasNUL (assignment (key, value)) = false.
Proof.
  rewrite !hasNUL_false. intros Hk Hv. unfold assignment. cbn [fst snd].
  rewrite !IndexByte_app_None. by split_and!.
Qed.

(** The name of the entry for a key that is not empty and has no ["="] is
    the key. *)
Lemma envName_assignment (key value : string) :
  without "="%char key → key ≠ "" →
  envName (assignment (key, value)) = Some key.
Proof.
  intros Hw Hne. unfold assignment, envName. cbn [fst snd].
  change ("=" +:+ value) with (String "="%char value).
  rewrite (IndexByte_app_without _ _ _ Hw).
  destruct key as [|x key]; [done|].
  change (len (String x key)) with (S (len key)). cbv iota beta.
  change (S (len key)) with (len (String x key)).
  by rewrite slice_to_app.
Qed.

(** The name of the entry for the empty key is empty or starts with
    ["="]. *)
Lemma envName_assignment_empty (value : string) :
  ∃ n, envName (assignment ("", value)) = Some n ∧
       (n = "" ∨ ∃ t, n = String "="%char t).
Proof.
  unfold assignment, envName. cbn [fst snd].
  change ("" +:+ "=" +:+ value) with (String "="%char value).
  cbn [IndexByte]. rewrite decide_True by done.
  destruct (IndexByte (slice_from (String "="%char value) 1) "="%char)
    as [j|].
  - eexists. split; [done|]. right. rewrite Nat.add_1_r. by eexists.
  - eexists. split; [done|]. by left.
Qed.

Lemma envName_assignment_inj (k1 v1 k2 v2 : string) :
  without "="%char k1 → without "="%char k2 →
  envName (assignment (k1, v1)) = envName (assignment (k2, v2)) → k1 = k2.
Proof.
  assert (∀ k v t, without "="%char k → k ≠ "" →
                   envName (assignment ("", v)) = envName (assignment (k, t))
                   → False) as Hmixed.
  { intros k v t Hw Hne.
    rewrite (envName_assignment _ _ Hw Hne).
    destruct (envName_assignment_empty v) as (n & -> & [->|[u ->]]).
    - intros [= <-]. done.
    - intros [= <-]. by destruct Hw as [Hw _]. }
  intros Hw1 Hw2 Heq.
  destruct (decide (k1 = "")) as [->|H1], (decide (k2 = "")) as [->|H2].
  - done.
  - by destruct (Hmixed _ _ _ Hw2 H2 Heq).
  - symmetry in Heq. by destruct (Hmixed _ _ _ Hw1 H1 Heq).
  - rewrite !envName_assignment in Heq by done. by injection Heq.
Qed.

(** Every entry built from a binding has a name. *)
Lemma envName_assignment_Some (kv : string * string) :
  is_Some (envName (assignment kv)).
Proof.
  destruct kv as [k v]. unfold assignment, envName. cbn [fst snd].
  assert (∃ i, IndexByte (k +:+ "=" +:+ v) "="%char = Some i) as [i ->].
  { change ("=" +:+ v) with (String "="%char v).
    induction k as [|x k [i IH]].
    - exists 0. change ("" +:+ String "="%char v) with (String "="%char v).
      cbn [IndexByte]. by rewrite decide_True.
    - change (String x k +:+ String "="%char v)
        with (String x (k +:+ String "="%char v)).
      cbn [IndexByte]. destruct (decide (x = "="%char)); [by eexists|].
      rewrite IH. by eexists. }
  destruct i; by eexists.
Qed.

(** Tidy exports give a proper environment, in whatever order the
    mapping is ranged over. *)
Lemma exports_proper (m : gmap string string) (l : list (string * string)) :
  l ≡ₚ map_to_list m → tidy m → proper (assignment <$> l).
Proof.
  intros Hperm Htidy.
  assert (∀ kv, kv ∈ l → m !! kv.1 = Some kv.2) as Hin.
  { intros [k v] H. rewrite Hperm in H. by apply elem_of_map_to_list. }
  split.
  - apply Forall_fmap, Forall_forall. intros [k v] H.
    destruct (Htidy k v (Hin _ H)) as (_ & Hk & Hv). simpl. split.
    + by apply hasNUL_assignment.
    + apply envName_assignment_Some.
  - rewrite <- list_fmap_compose. apply NoDup_fmap_2_strong.
    + intros [k1 v1] [k2 v2] H1 H2 Heq. simpl in Heq.
      pose proof (Hin _ H1) as L1. pose proof (Hin _ H2) as L2.
      simpl in L1, L2.
      assert (k1 = k2) as <-.
      { eapply envName_assignment_inj; [..|exact Heq].
        - by destruct (Htidy _ _ L1).
        - by destruct (Htidy _ _ L2). }
      congruence.
    + rewrite Hperm. apply NoDup_map_to_list.
Qed.

(** *** The claim *)

(** The claim of C1 fails where it insists on the empty mapping: for a
    service without exports, [cmd.Env] stays nil and the process gets the
    whole environment of the relay, here [HOME=/root], although there is
    nothing to export. *)
Lemma ambient_environment_inherited :
  export sample.noExport sample.calm 0 = [] ∧
  environ ["HOME=/root"]
          (command sample.noExport sample.calm 0 (sample.tmpName 0))
  = ["HOME=/root"].
Proof. split; reflexivity. Qed.

(** C1 (amended).  In every cycle of a service whose exports are not
    empty, [cmd.Env] holds one [NAME=VALUE] entry for each key of the
    mapping, in the order of the iteration, and the spawned process gets
    nothing of the environment of the parent: its environment is made of
    entries of [cmd.Env], in their order.  Of the entries with the same
    variable name os/exec passes on one only, the last, and [cmd.Start]
    succeeds only if no entry holds a NUL byte.  So the environment is
    exactly the exports, one entry per key, when the exports are tidy: no
    key contains ["="] and no key or value contains NUL.  When the mapping
    is empty [cmd.Env] is nil and the process inherits the environment of
    the parent, unchanged if it is a proper one; so it does in package
    [server], which never sets [cmd.Env]. *)
Theorem spawned_environment
        (s : Service) (w : World) (k : nat) (name : string)
        (parent : list string) (old : server.Service) :
  rangeMap w k (map_to_list (expo s)) ≡ₚ map_to_list (expo s) →
  let c := command s w k name in
  (expo s ≠ ∅ →
   Env c = Some (export s w k) ∧
   export s w k ≡ₚ assignment <$> map_to_list (expo s) ∧
   environ parent c `sublist_of` export s w k ∧
   (∀ entry, entry ∈ environ parent c →
             ∃ key value, expo s !! key = Some value ∧
                          entry = key +:+ "=" +:+ value) ∧
   NoDup (omap envName (environ parent c)) ∧
   (∀ before entry after,
      export s w k = before ++ entry :: after →
      hasNUL entry = false →
      Forall (λ later, hasNUL later = false →
                       envName later ≠ envName entry) after →
      entry ∈ environ parent c) ∧
   ((Cmd_environ parent c).2 = None
    ↔ Forall (λ entry, hasNUL entry = false) (export s w k)) ∧
   (tidy (expo s) →
    (Cmd_environ parent c).2 = None ∧
    environ parent c = export s w k ∧
    List.length (environ parent c) = size (expo s) ∧
    ∀ entry, entry ∈ environ parent c ↔
             ∃ key value, expo s !! key = Some value ∧
                          entry = key +:+ "=" +:+ value)) ∧
  (expo s = ∅ →
   Env c = None ∧
   environ parent c = (dedupEnv parent).1 ∧
   (proper parent → environ parent c = parent)) ∧
  environ parent (server.command old name) = (dedupEnv parent).1 ∧
  (proper parent → environ parent (server.command old name) = parent).
Proof.
  intros Hperm c.
  assert (∀ entry, entry ∈ export s w k ↔
                   ∃ key value, expo s !! key = Some value ∧
                                entry = key +:+ "=" +:+ value) as Hentries.
  { intros entry. unfold export. rewrite Hperm, list_elem_of_fmap. split.
    - intros ([key value] & -> & Hin%elem_of_map_to_list). by exists key, value.
    - intros (key & value & Hin & ->). exists (key, value).
      split; [done|]. by apply elem_of_map_to_list. }
  split_and!.
  - intros Hne.
    assert (Env c = Some (export s w k)) as HEnv.
    { unfold c, command, export. simpl.
      destruct (rangeMap w k (map_to_list (expo s))) as [|kv kvs] eqn:Hr;
        [|done].
      symmetry in Hperm. apply Permutation_nil_r in Hperm.
      by apply map_to_list_empty_iff in Hperm. }
    assert (Cmd_environ parent c = dedupEnv (export s w k)) as Hce.
    { unfold Cmd_environ. by rewrite HEnv. }
    unfold environ. rewrite Hce.
    split_and!.
    + done.
    + unfold export. by rewrite Hperm.
    + apply dedupEnv_sublist.
    + intros entry Hin. apply Hentries.
      by eapply elem_of_sublist; [|apply dedupEnv_sublist].
    + apply dedupEnv_NoDup.
    + intros before entry after Heq Hn Hafter.
      assert (entry ∈ export s w k) as Hin.
      { rewrite Heq. set_solver. }
      rewrite Heq. apply dedupEnv_last; [done| |done].
      unfold export in Hin. apply list_elem_of_fmap in Hin as (kv & -> & _).
      apply envName_assignment_Some.
    + apply dedupEnv_err.
    + intros Htidy.
      rewrite (dedupEnv_proper (export s w k))
        by (by apply (exports_proper (expo s))).
      cbn [fst snd]. split_and!; [done|done| |done].
      unfold export. by rewrite length_fmap, Hperm, length_map_to_list.
  - intros Hempty.
    assert (Env c = None) as HEnv.
    { unfold c, command, export. simpl.
      assert (rangeMap w k (map_to_list (expo s)) = []) as ->; [|done].
      apply Permutation_nil_r. symmetry.
      by rewrite Hperm, Hempty, map_to_list_empty. }
    unfold environ, Cmd_environ. rewrite HEnv.
    split_and!; [done|done|]. intros Hp. by rewrite dedupEnv_proper.
  - done.
  - intros Hp. unfold environ, Cmd_environ. simpl. by rewrite dedupEnv_proper.
Qed.

Lemma spawned_environment_witness :
  rangeMap sample.calm 0 (map_to_list (expo sample.withExport))
  ≡ₚ map_to_list (expo sample.withExport) ∧
  environ ["HOME=/root"]
          (command sample.withExport sample.calm 0 (sample.tmpName 0))
  = export sample.withExport sample.calm 0.
Proof.
  assert (rangeMap sample.calm 0 (map_to_list (expo sample.withExport))
          ≡ₚ map_to_list (expo sample.withExport)) as Hperm by reflexivity.
  split; [exact Hperm|].
  refine (proj1 (proj2 (proj2 (proj2 (proj2 (proj2 (proj2 (proj2 (proj2
            (proj1 (spawned_environment sample.withExport
                      sample.calm 0 (sample.tmpName 0) ["HOME=/root"]
                      sample.old Hperm) _))))))) _))).
  - vm_compute. discriminate.
  - intros key value H. change (expo sample.withExport)
      with ({[ "FOO" := "bar" ]} : gmap string string) in H.
    apply lookup_singleton_Some in H as [<- <-].
    repeat split; discriminate.
Defined.

Example spawned_environment_FOO :
  environ ["HOME=/root"]
          (command sample.withExport sample.calm 0 (sample.tmpName 0))
  = ["FOO=bar"].
Proof. reflexivity. Qed.

(** Two exports with the same variable name: the keys [A] and [A=1] give
    the entries [A=1] and [A=1=x], of which the process gets the one that
    the iteration yields last. *)
Example same_name_exported_twice :
  export sample.sameName sample.calm 0 = ["A=1=x"; "A=1"] ∧
  environ ["HOME=/root"]
          (command sample.sameName sample.calm 0 (sample.tmpName 0))
  = ["A=1"] ∧
  export sample.sameName sample.backwards 0 = ["A=1"; "A=1=x"] ∧
  environ ["HOME=/root"]
          (command sample.sameName sample.backwards 0 (sample.tmpName 0))
  = ["A=1=x"].
Proof. split_and!; reflexivity. Qed.

(** A NUL byte in an export makes [cmd.Start] fail. *)
Example NUL_exported :
  Cmd_environ ["HOME=/root"]
              (command sample.withNUL sample.calm 0 (sample.tmpName 0))
  = ([], Some NULerr).
Proof. reflexivity. Qed.

(** ** Resolving the shell *)

Import main.

(** The claim of C8 fails on two inputs.  An absolute path followed by a
    blank is not returned as it is, but without the blank.  And a name
    that is neither absolute nor an existing relative path is not always
    searched on the search path: when [os.Stat] fails for another reason
    than absence, [bash] is rejected although the search path has it. *)
Lemma resolveShell_not_as_stated :
  IsAbs "/bin/sh " = true ∧
  resolveShell sample.lockedDir sample.quoted "/bin/sh " = inr "/bin/sh" ∧
  LookPath sample.lockedDir "bash" = inr "/bin/bash" ∧
  resolveShell sample.lockedDir sample.quoted "bash"
  = inl (wrapError
           ("failed to stat " +:+ sample.quoted "bash" +:+ ": permission denied")
           (errorString "permission denied")).
Proof. split_and!; reflexivity. Qed.

(** C8 (amended).  [resolveShell] first strips the white space around its
    input; what is left, [name], is rejected when empty; returned as it is
    when absolute, without a look at the disk; and otherwise given to
    [os.Stat]: if the file is there the result is that of [filepath.Abs],
    if it is absent the result is that of the search on the executable
    search path, and any other failure of [os.Stat] is an error without a
    search.  An error of [resolveShell] makes [main] exit before the
    service is constructed, and [Make] fails, with the same effect, when
    [exec.LookPath] does not accept the resolved shell. *)
Theorem resolveShell_cases
        (os : OS) (Quote : string → string) (shell : string) :
  let name := TrimSpace shell in
  let result := resolveShell os Quote shell in
  (name = "" → ∃ e, result = inl e) ∧
  (IsAbs name = true → result = inr name) ∧
  (name ≠ "" → IsAbs name = false →
   match Stat os name with
   | StatInfo =>
       match Abs os name with
       | inr abs => result = inr abs
       | inl _ => ∃ e, result = inl e
       end
   | StatErr true _ =>
       match LookPath os name with
       | inr path => result = inr path
       | inl _ => ∃ e, result = inl e
       end
   | StatErr false _ => ∃ e, result = inl e
   end) ∧
  (∀ Atoi Itoa arg more defaultAddr defaultPort expo e,
      Split arg = shell :: more → result = inl e →
      startService os Quote Atoi Itoa arg defaultAddr defaultPort expo
      = Exit 1) ∧
  (∀ Atoi Itoa arg defaultAddr defaultPort expo path addr port e,
      parseServiceArg os Quote Atoi Itoa arg defaultAddr defaultPort
      = inr (path, addr, port) →
      LookPath os path = inl e →
      (∃ e', Make os Quote path addr port expo = inl e') ∧
      startService os Quote Atoi Itoa arg defaultAddr defaultPort expo
      = Exit 1).
Proof.
  intros name result. split_and!.
  - unfold result, resolveShell. fold name. intros ->. by eexists.
  - unfold result, resolveShell. fold name.
    intros Habs. destruct (decide (name = "")) as [Hn|_].
    + by rewrite Hn in Habs.
    + by rewrite Habs.
  - unfold result, resolveShell. fold name.
    intros Hn Habs. rewrite decide_False, Habs by done.
    destruct (Stat os name) as [|[|] e].
    + destruct (Abs os name); [by eexists|done].
    + destruct (LookPath os name); [by eexists|done].
    + by eexists.
  - intros Atoi Itoa arg more defaultAddr defaultPort expo e HSplit Hres.
    unfold startService, parseServiceArg. rewrite HSplit.
    destruct (decide (shell = "")); [done|].
    unfold result in Hres.
    destruct more as [|a [|p [|x y]]]; [| | |done].
    + case_bool_decide; [done|]. by rewrite Hres.
    + case_bool_decide; [done|]. by rewrite Hres.
    + destruct (decide (p = "")).
      * case_bool_decide; [done|]. by rewrite Hres.
      * destruct (Atoi p); [done|].
        case_bool_decide; [done|]. by rewrite Hres.
  - intros Atoi Itoa arg defaultAddr defaultPort expo path addr port e
           Hparse Hlook.
    unfold startService, Make. rewrite Hparse, Hlook. split; [by eexists|done].
Qed.

Lemma resolveShell_cases_witness :
  IsAbs (TrimSpace "/bin/sh ") = true ∧
  resolveShell sample.lockedDir sample.quoted "/bin/sh "
  = inr (TrimSpace "/bin/sh ").
Proof.
  split; [reflexivity|].
  refine (proj1 (proj2 (resolveShell_cases sample.lockedDir sample.quoted
                          "/bin/sh ")) _).
  reflexivity.
Defined.

(** ** Spool files *)

Import spool.

Lemma bounded_length (L : list string) (tr : list Event) :
  bounded L tr → (List.length L ≤ 1)%nat.
Proof. destruct tr; simpl; tauto. Qed.

Lemma bounded_app (t1 t2 : list Event) (L : list string) :
  bounded L t1 → bounded (foldl liveStep L t1) t2 → bounded L (t1 ++ t2).
Proof.
  revert L. induction t1 as [|ev t1 IH]; intros L H1 H2; simpl in *; [done|].
  split; [tauto|]. apply IH; tauto.
Qed.

Lemma bounded_prefix (tr p : list Event) (L : list string) :
  bounded L tr → p `prefix_of` tr →
  (List.length (foldl liveStep L p) ≤ 1)%nat.
Proof.
  revert L p. induction tr as [|ev tr IH]; intros L p Hb Hp.
  - apply prefix_nil_inv in Hp as ->. simpl in *. tauto.
  - destruct p as [|x p]; simpl in *; [tauto|].
    pose proof (prefix_cons_inv_1 _ _ _ _ Hp) as ->.
    apply IH; [tauto|]. by eapply prefix_cons_inv_2.
Qed.

Lemma bounded_Remove (defers : list string) (L : list string) :
  (List.length L ≤ 1)%nat → bounded L (Remove <$> defers).
Proof.
  revert L. induction defers as [|name defers IH]; intros L HL; simpl; [done|].
  split; [done|]. apply IH.
  etrans; [apply length_filter|done].
Qed.

Lemma liveStep_Remove_self (name : string) :
  liveStep [name] (Remove name) = [].
Proof.
  simpl. rewrite filter_cons, decide_False by (intros H; by apply H). done.
Qed.

Lemma bounded_prepend (evs : list Event) (o : Outcome) (L : list string) :
  bounded L evs → bounded (foldl liveStep L evs) (trace o) →
  bounded L (trace (evs +> o)).
Proof. rewrite trace_prepend. apply bounded_app. Qed.

(** A handler holds no spool file while it waits for a marker, and one
    while it receives a script. *)
Lemma loops_bounded (s : Service) (w : World) (rest : string) (err : error)
      (ls : list string) :
  (∀ k defers, bounded [] (trace (awaitMarker s w rest err k defers ls))) ∧
  (∀ k name defers M file,
      bounded [name]
              (trace (receiveScript s w rest err k name defers M file ls))).
Proof.
  induction ls as [|line ls [IHa IHr]].
  - split.
    + intros k defers. simpl. destruct (errors_Is_EOF err); simpl;
        repeat (split; [lia|]); apply bounded_Remove; simpl; lia.
    + intros k name defers M file. simpl. case_bool_decide; simpl;
        repeat (split; [lia|]); apply bounded_Remove; simpl; lia.
  - split.
    + intros k defers. rewrite awaitMarker_cons.
      case_bool_decide; [apply bounded_Remove; simpl; lia|].
      case_bool_decide; [apply IHa|].
      destruct (createTemp w k) as [e|name].
      * simpl. repeat (split; [lia|]). apply bounded_Remove. simpl. lia.
      * apply bounded_prepend; simpl; [lia|]. apply IHr.
    + intros k name defers M file. rewrite receiveScript_cons.
      case_bool_decide.
      * unfold execute.
        destruct (run w k (command s w k name) file) as [e|out er cmdErr].
        -- simpl. repeat (split; [lia|]). apply bounded_Remove. simpl. lia.
        -- assert (∀ tl : list Event,
                      bounded [] tl →
                      bounded [name]
                        (([Close name; Start (command s w k name) file]
                          ++ ((if bool_decide (0 < len out)
                               then [ConnWrite out] else [])
                              ++ (if bool_decide (0 < len er)
                                  then [ConnWrite er] else []))
                          ++ [Remove name]) ++ tl)) as Hexec.
           { intros tl Htl. simpl.
             do 2 (split; [simpl; lia|]).
             repeat case_bool_decide; simpl;
               rewrite ?filter_cons, ?decide_False
                 by (intros H'; by apply H');
               repeat (split; [simpl; lia|]); exact Htl. }
           destruct cmdErr as [e|].
           ++ rewrite trace_prepend, <- app_assoc. apply Hexec.
              simpl. repeat (split; [lia|]). apply IHa.
           ++ rewrite trace_prepend, <- app_assoc. apply Hexec.
              simpl. split; [lia|]. apply bounded_Remove. simpl. lia.
      * destruct (writeString w k file line) as [e|].
        -- simpl. repeat (split; [lia|]). apply bounded_Remove. simpl. lia.
        -- apply bounded_prepend; simpl; [lia|]. apply IHr.
Qed.

Lemma serve_bounded (s : Service) (w : World) (conn : Conn) :
  bounded [] (trace (serve s w conn)).
Proof.
  unfold serve. simpl. apply bounded_app.
  - apply loops_bounded.
  - pose proof (bounded_prefix _ _ []
                  (proj1 (loops_bounded s w (partial (NewReader conn))
                            (fin (NewReader conn)) (lines (NewReader conn)))
                         0 [])
                  (reflexivity _)) as Hlen.
    simpl. tauto.
Qed.

Lemma filter_sublist_mono {A} (P : A → Prop) `{!∀ x, Decision (P x)}
      (l1 l2 : list A) :
  l1 `sublist_of` l2 → filter P l1 `sublist_of` filter P l2.
Proof.
  induction 1 as [|x l1 l2 _ IH|x l1 l2 _ IH]; [done| |];
    rewrite ?filter_cons; destruct (decide (P x));
    auto using sublist_skip, sublist_cons.
Qed.

Lemma owned_filter (c : nat) (name : string) (fs : Files) :
  owned c (filter (λ f, f.1 ≠ name) fs)
  = filter (λ n, n ≠ name) (owned c fs).
Proof.
  unfold owned. induction fs as [|[n c'] fs IH]; [done|].
  rewrite (filter_cons (λ f : string * nat, f.1 ≠ name)).
  rewrite (filter_cons (λ f : string * nat, f.2 = c) (n, c') fs). simpl.
  destruct (decide (n ≠ name)) as [H1|H1], (decide (c' = c)) as [H2|H2].
  - rewrite filter_cons. simpl. rewrite decide_True by done. simpl.
    rewrite filter_cons, decide_True by done. f_equal. exact IH.
  - rewrite filter_cons. simpl. rewrite decide_False by done. exact IH.
  - simpl. rewrite filter_cons, decide_False by done. exact IH.
  - exact IH.
Qed.

(** One action of the system keeps the files of connection [c] among
    those its handler knows to hold; the actions of the others can only
    take files away. *)
Lemma step_owned (c c' : nat) (ev : Event) (fs : Files) (L : list string) :
  owned c fs `sublist_of` L →
  owned c (step fs (c', ev))
  `sublist_of` (if decide (c' = c) then liveStep L ev else L).
Proof.
  intros Hsub.
  assert (∀ name, owned c (filter (λ f, f.1 ≠ name) fs) `sublist_of` L) as Hrm.
  { intros name. rewrite owned_filter. etrans; [apply sublist_filter|done]. }
  destruct (decide (c' = c)) as [->|Hne].
  - destruct ev; simpl; try done.
    + unfold owned. rewrite filter_cons, decide_True by done.
      simpl. by apply sublist_skip.
    + rewrite owned_filter. by apply filter_sublist_mono.
  - destruct ev; simpl; try done.
    unfold owned. by rewrite filter_cons, decide_False by done.
Qed.

Lemma project_cons (c c' : nat) (ev : Event) (g : list (nat * Event)) :
  project c ((c', ev) :: g)
  = if decide (c' = c) then ev :: project c g else project c g.
Proof.
  unfold project. rewrite filter_cons. simpl. by destruct (decide (c' = c)).
Qed.

Lemma project_app (c : nat) (g1 g2 : list (nat * Event)) :
  project c (g1 ++ g2) = project c g1 ++ project c g2.
Proof. unfold project. by rewrite filter_app, fmap_app. Qed.

Lemma owned_live (c : nat) (g : list (nat * Event)) (fs : Files)
      (L : list string) :
  owned c fs `sublist_of` L →
  owned c (foldl step fs g) `sublist_of` foldl liveStep L (project c g).
Proof.
  revert fs L. induction g as [|[c' ev] g IH]; intros fs L Hsub; [done|].
  rewrite project_cons. simpl foldl at 1.
  pose proof (step_owned c c' ev fs L Hsub) as Hstep.
  destruct (decide (c' = c)); by apply IH.
Qed.

Lemma exclusive_NoDup (g : list (nat * Event)) (fs : Files) :
  NoDup fs.*1 → exclusive fs g = true → NoDup (foldl step fs g).*1.
Proof.
  revert fs. induction g as [|[c ev] g IH]; intros fs Hfs Hex; [done|].
  simpl in Hex. apply andb_prop in Hex as [Hev Hex].
  simpl foldl. apply IH; [|done].
  destruct ev; simpl; try done.
  - apply bool_decide_eq_true_1 in Hev. by constructor.
  - eapply sublist_NoDup; [done|]. apply fmap_sublist, sublist_filter.
Qed.

Lemma exclusive_app (g1 g2 : list (nat * Event)) (fs : Files) :
  exclusive fs (g1 ++ g2) = true → exclusive fs g1 = true.
Proof.
  revert fs. induction g1 as [|a g1 IH]; intros fs H; [done|].
  simpl in *. apply andb_prop in H as [H1 H2].
  rewrite H1. simpl. by eapply IH.
Qed.

(** The claim of C7 fails where it says that the names of spool files
    are never shared: [os.CreateTemp] only sees to it that the file it
    creates does not exist, so that the name of a spool file that has been
    removed can be drawn again.  Here the two cycles of the first
    connection and the cycle of the second one use the same name, one
    after the other. *)
Lemma spool_name_reused :
  schedule sample.reusers sample.reuseRun ∧
  exclusive [] sample.reuseRun = true ∧
  created sample.reuseRun
  = [(0, sample.tmpName 0); (0, sample.tmpName 0); (1, sample.tmpName 0)] ∧
  ¬ NoDup (created sample.reuseRun).*2.
Proof.
  split_and!.
  - intros [|[|c]]; exists []; vm_compute; reflexivity.
  - vm_compute. reflexivity.
  - vm_compute. reflexivity.
  - intros H. vm_compute in H. apply NoDup_cons in H as [H _].
    apply H. by left.
Qed.

(** C7 (amended).  In every run of any number of connection handlers on a
    shared temporary directory, where [os.CreateTemp] never creates a file
    that exists, at every point of the run each connection has at most one
    spool file in existence, and no two spool files in existence, of
    different connections or not, have the same name. *)
Theorem spool_files_disjoint
        (tasks : list (Service * World * Conn)) (g : list (nat * Event)) :
  schedule tasks g →
  exclusive [] g = true →
  ∀ g', g' `prefix_of` g →
        (∀ c, (List.length (owned c (after g')) ≤ 1)%nat) ∧
        NoDup (after g').*1.
Proof.
  intros Hs He g' [g'' ->]. split.
  - intros c. etrans.
    { apply sublist_length, (owned_live c g' [] []). done. }
    specialize (Hs c). rewrite project_app in Hs.
    apply prefix_app_l in Hs.
    destruct (tasks !! c) as [[[s w] conn]|].
    + eapply bounded_prefix; [apply serve_bounded|done].
    + apply prefix_nil_inv in Hs as ->. simpl. lia.
  - apply exclusive_NoDup; [constructor|]. by eapply exclusive_app.
Qed.

Lemma spool_files_disjoint_witness :
  schedule sample.twins sample.twinRun ∧
  exclusive [] sample.twinRun = true ∧
  take 6 sample.twinRun `prefix_of` sample.twinRun ∧
  (∀ c, (List.length (owned c (after (take 6 sample.twinRun))) ≤ 1)%nat) ∧
  NoDup (after (take 6 sample.twinRun)).*1.
Proof.
  assert (schedule sample.twins sample.twinRun) as Hs.
  { intros [|[|c]]; exists []; vm_compute; reflexivity. }
  assert (exclusive [] sample.twinRun = true) as He by (vm_compute; reflexivity).
  assert (take 6 sample.twinRun `prefix_of` sample.twinRun) as Hp
    by apply prefix_take.
  split_and!; [done..| |];
    apply (spool_files_disjoint sample.twins sample.twinRun Hs He _ Hp).
Defined.

Example twins_hold_one_file_each :
  after (take 6 sample.twinRun)
  = [(sample.tmpName 5, 1); (sample.tmpName 0, 0)].
Proof. vm_compute. reflexivity. Qed.

(** What the amended claim leaves open.  [os.Remove] deletes by name, and
    the handler removes the spool file of a failed cycle a second time
    when it returns (the [defer] of service.go:159 after the [os.Remove]
    of :232).  When the name has been drawn again in between, the second
    removal deletes the file that is there now: here that of the second
    connection, just before its shell is started on it. *)
Example late_removal_hits_other_file :
  schedule sample.lateComers sample.lateRun ∧
  exclusive [] sample.lateRun = true ∧
  after (take 20 sample.lateRun) = [(sample.tmpName 0, 1)] ∧
  sample.lateRun !! 20 = Some (0, Remove (sample.tmpName 0)) ∧
  after (take 21 sample.lateRun) = [] ∧
  ∃ c script, sample.lateRun !! 22 = Some (1, Start c script) ∧
              last (Args c) = Some (sample.tmpName 0).
Proof.
  split_and!.
  - intros [|[|c]]; exists []; vm_compute; reflexivity.
  - vm_compute. reflexivity.
  - vm_compute. reflexivity.
  - vm_compute. reflexivity.
  - vm_compute. reflexivity.
  - eexists _, _. split; vm_compute; reflexivity.
Qed.

(** Taken alone, a handler never holds two spool files, whatever the
    world answers. *)
Lemma handler_holds_one_spool_file
      (s : Service) (w : World) (conn : Conn) (p : list Event) :
  p `prefix_of` trace (serve s w conn) → (List.length (live p) ≤ 1)%nat.
Proof. intros Hp. eapply bounded_prefix; [apply serve_bounded|done]. Qed.

(** ** Whole sessions *)

(** The loops read the connection through [ReadString] and nothing else:
    one call at the head of each iteration. *)
Lemma awaitMarker_ReadString (s : Service) (w : World) (r : Reader) (k : nat)
      (defers : list string) :
  awaitMarker s w (partial r) (fin r) k defers (lines r) =
  match ReadString r with
  | ((_, Some err), _) =>
      (if errors_Is_EOF err then []
       else report LevelWarn "failed to read EOF marker" err)
      +> returning defers RetNil
  | ((eofMarker, None), r') =>
      if bool_decide (len eofMarker = 0) then returning defers Panic
      else if bool_decide (len (slice_to eofMarker (len eofMarker - 1)) = 0)
      then awaitMarker s w (partial r') (fin r') k defers (lines r')
      else match createTemp w k with
           | inl e =>
               report LevelError "failed to create temp file" e
               +> returning defers (RetErr e)
           | inr name =>
               [CreateTemp name]
               +> receiveScript s w (partial r') (fin r') k name
                    (name :: defers)
                    (slice_to eofMarker (len eofMarker - 1)) "" (lines r')
           end
  end.
Proof. destruct r as [[|line ls] p f]; reflexivity. Qed.

Lemma receiveScript_ReadString (s : Service) (w : World) (r : Reader) (k : nat)
      (name : string) (defers : list string) (eofMarker file : string) :
  receiveScript s w (partial r) (fin r) k name defers eofMarker file (lines r) =
  match ReadString r with
  | ((_, Some err), _) =>
      (if bool_decide (err ≠ EOF)
       then report LevelWarn "failed to read script" err else [])
      +> returning defers RetNil
  | ((line, None), r') =>
      if bool_decide (trimNewline line = eofMarker) then
        match execute s w k name file with
        | (evs, Return res) => evs +> returning defers res
        | (evs, Continue) =>
            evs +> awaitMarker s w (partial r') (fin r') (S k) defers (lines r')
        end
      else match writeString w k file line with
           | Some e =>
               report LevelWarn "failed to write script" e
               +> returning defers RetNil
           | None =>
               [WriteString name line]
               +> receiveScript s w (partial r') (fin r') k name defers
                    eofMarker (file +:+ line) (lines r')
           end
  end.
Proof. destruct r as [[|line ls] p f]; reflexivity. Qed.

(** The handler never panics: the slice expression of service.go:143 is
    always within bounds. *)
Lemma HandleConnection_no_panic (s : Service) (w : World) (conn : Conn) :
  ret (HandleConnection s w conn) ≠ Panic.
Proof.
  pose proof (proj1 (loops_ret s w (partial (NewReader conn))
                       (fin (NewReader conn)) _
                       (frame_terminated (input conn))) 0 []) as Ho.
  change (fromCreateTemp w (HandleConnection s w conn)) in Ho.
  destruct Ho as [H|(e & k & H & _)]; by rewrite H.
Qed.

(** Whatever the handler did, the connection is closed when it returns. *)
Lemma serve_closes (s : Service) (w : World) (conn : Conn) :
  last (trace (serve s w conn)) = Some ConnClose.
Proof. unfold serve. simpl. apply last_snoc. Qed.

(** The session of the README: one script, which succeeds. *)
Example session_success :
  serve sample.withExport sample.calm {| input := sample.upload; readErr := EOF |}
  = {| ret := RetNil;
       trace :=
         [CreateTemp (sample.tmpName 0);
          WriteString (sample.tmpName 0) ("ls -la" +:+ NL);
          Close (sample.tmpName 0);
          Start {| Path := "/bin/sh";
                   Args := ["/bin/sh"; "-l"; sample.tmpName 0];
                   Env := Some ["FOO=bar"] |} ("ls -la" +:+ NL);
          ConnWrite ("ls -la" +:+ NL);
          Remove (sample.tmpName 0);
          Log LevelInfo "script executed successfully" [];
          Remove (sample.tmpName 0);
          ConnClose] |}.
Proof. vm_compute. reflexivity. Qed.

(** A script that fails, an empty marker line, and a second script on the
    same connection. *)
Example session_retry :
  written (trace (serve sample.noExport sample.failingOnce
                    {| input := sample.upload +:+ NL +:+ "M" +:+ NL
                                +:+ "pwd" +:+ NL +:+ "M" +:+ NL
                                +:+ "never read";
                       readErr := errorString "connection reset" |}))
  = ["ls -la" +:+ NL; "oops";
     "error: script execution failed: exit status 1" +:+ NL;
     "pwd" +:+ NL].
Proof. vm_compute. reflexivity. Qed.

(** The closing marker without its newline closes nothing. *)
Example session_unterminated_marker :
  serve sample.withExport sample.calm
        {| input := "EOF" +:+ NL +:+ "ls -la" +:+ NL +:+ "EOF"; readErr := EOF |}
  = {| ret := RetNil;
       trace := [CreateTemp (sample.tmpName 0);
                 WriteString (sample.tmpName 0) ("ls -la" +:+ NL);
                 Remove (sample.tmpName 0);
                 ConnClose] |}.
Proof. vm_compute. reflexivity. Qed.

(** Without room for the spool file the handler returns the error. *)
Example session_no_space :
  ret (HandleConnection sample.withExport sample.noSpace
         {| input := sample.upload; readErr := EOF |})
  = RetErr (errorString "no space left on device").
Proof. vm_compute. reflexivity. Qed.

(* ===================================================================== *)
(** * Further properties of the handler *)
(* ===================================================================== *)

(** ** The spool files are cleaned up *)

Lemma liveStep_subseteq (L defers : list string) (ev : Event) :
  L ⊆ defers →
  (∀ name, ev ≠ CreateTemp name) →
  liveStep L ev ⊆ defers.
Proof.
  intros HL Hev. destruct ev; simpl; try done.
  - by destruct (Hev name).
  - intros x Hx. apply list_elem_of_filter in Hx as [_ Hx]. by apply HL.
Qed.

Lemma removes_clear (defers L : list string) :
  L ⊆ defers → foldl liveStep L (Remove <$> defers) = [].
Proof.
  revert L. induction defers as [|name defers IH]; intros L HL; simpl.
  - destruct L as [|x L]; [done|]. specialize (HL x). set_solver.
  - apply IH. intros x Hx. apply list_elem_of_filter in Hx as [Hne Hx].
    apply HL in Hx. set_solver.
Qed.

Lemma execute_live (s : Service) (w : World) (k : nat) (name file : string)
      (L defers : list string) :
  L ⊆ defers →
  foldl liveStep L (execute s w k name file).1 ⊆ defers.
Proof.
  intros HL. unfold execute.
  assert (∀ L', L' ⊆ defers → filter (λ n, n ≠ name) L' ⊆ defers) as Hf.
  { intros L' HL' x Hx. apply list_elem_of_filter in Hx as [_ Hx].
    by apply HL'. }
  destruct (run w k (command s w k name) file) as [e|out er [e|]]; simpl;
    repeat case_bool_decide; simpl; auto.
Qed.

Lemma loops_clear (s : Service) (w : World) (rest : string) (err : error)
      (ls : list string) :
  (∀ k defers L, L ⊆ defers →
     foldl liveStep L (trace (awaitMarker s w rest err k defers ls)) = []) ∧
  (∀ k name defers M file L, L ⊆ defers →
     foldl liveStep L
           (trace (receiveScript s w rest err k name defers M file ls)) = []).
Proof.
  induction ls as [|line ls [IHa IHr]].
  - split.
    + intros k defers L HL. simpl. rewrite foldl_app.
      apply removes_clear. by destruct (errors_Is_EOF err).
    + intros k name defers M file L HL. simpl. rewrite foldl_app.
      apply removes_clear. by case_bool_decide.
  - split.
    + intros k defers L HL. rewrite awaitMarker_cons.
      case_bool_decide; [by apply removes_clear|].
      case_bool_decide; [by apply IHa|].
      destruct (createTemp w k) as [e|name].
      * simpl. by apply removes_clear.
      * rewrite trace_prepend. simpl. apply IHr. set_solver.
    + intros k name defers M file L HL. rewrite receiveScript_cons.
      case_bool_decide.
      * pose proof (execute_live s w k name file L defers HL) as Hex.
        destruct (execute s w k name file) as [evs [|r]];
          rewrite trace_prepend, foldl_app; simpl in Hex.
        -- by apply IHa.
        -- by apply removes_clear.
      * destruct (writeString w k file line) as [e|].
        -- simpl. by apply removes_clear.
        -- rewrite trace_prepend. simpl. by apply IHr.
Qed.

(** X1.  However a connection ends (end of stream, read or write failure,
    failure to start the shell, success), none of the spool files its
    handler created is left when the handler returns. *)
Theorem no_spool_file_left (s : Service) (w : World) (conn : Conn) :
  live (trace (HandleConnection s w conn)) = [] ∧
  live (trace (serve s w conn)) = [].
Proof.
  assert (live (trace (HandleConnection s w conn)) = []) as H.
  { apply (loops_clear s w). done. }
  split; [done|]. unfold live, serve in *. simpl.
  by rewrite foldl_app, H.
Qed.

(** ** Every file the handler touches is one it created *)

Lemma scoped_app (t1 t2 : list Event) (created : list string) :
  scoped created t1 → scoped (createdBy created t1) t2 →
  scoped created (t1 ++ t2).
Proof.
  revert created. induction t1 as [|ev t1 IH]; intros created H1 H2; [done|].
  destruct H1 as [Hev H1]. split; [done|]. by apply IH.
Qed.

Lemma scoped_Remove (defers created : list string) :
  defers ⊆ created → scoped created (Remove <$> defers).
Proof.
  induction defers as [|name defers IH]; intros Hd; simpl; [done|].
  split.
  - intros n [= <-]. set_solver.
  - apply IH. set_solver.
Qed.

Lemma scoped_split (tr tr1 tr2 : list Event) (ev : Event) (name : string)
      (created : list string) :
  scoped created tr → tr = tr1 ++ ev :: tr2 → touches ev = Some name →
  name ∈ created ∨ CreateTemp name ∈ tr1.
Proof.
  revert created tr. induction tr1 as [|x tr1 IH]; intros created tr Hs -> Hev.
  - left. destruct Hs as [Hs _]. by apply Hs.
  - destruct Hs as [_ Hs]. simpl in Hs.
    destruct (IH _ _ Hs eq_refl Hev) as [Hin|Hin]; [|set_solver].
    destruct x; simpl in Hin; set_solver.
Qed.

Lemma execute_scoped (s : Service) (w : World) (k : nat) (name file : string)
      (created : list string) :
  name ∈ created →
  scoped created (execute s w k name file).1 ∧
  createdBy created (execute s w k name file).1 = created.
Proof.
  intros Hn. unfold execute.
  destruct (run w k (command s w k name) file) as [e|out er [e|]]; simpl;
    repeat case_bool_decide; simpl; split_and!; try done;
    intros n [= <-]; done.
Qed.

Lemma loops_scoped (s : Service) (w : World) (rest : string) (err : error)
      (ls : list string) :
  (∀ k defers created, defers ⊆ created →
     scoped created (trace (awaitMarker s w rest err k defers ls))) ∧
  (∀ k name defers M file created, name ∈ created → defers ⊆ created →
     scoped created
            (trace (receiveScript s w rest err k name defers M file ls))).
Proof.
  induction ls as [|line ls [IHa IHr]].
  - split.
    + intros k defers created Hd. simpl. apply scoped_app.
      * by destruct (errors_Is_EOF err).
      * destruct (errors_Is_EOF err); by apply scoped_Remove.
    + intros k name defers M file created Hn Hd. simpl. apply scoped_app.
      * by case_bool_decide.
      * case_bool_decide; by apply scoped_Remove.
  - split.
    + intros k defers created Hd. rewrite awaitMarker_cons.
      case_bool_decide; [by apply scoped_Remove|].
      case_bool_decide; [by apply IHa|].
      destruct (createTemp w k) as [e|name].
      * simpl. split_and!; [done..|]. by apply scoped_Remove.
      * rewrite trace_prepend. simpl. split; [done|].
        apply IHr; set_solver.
    + intros k name defers M file created Hn Hd. rewrite receiveScript_cons.
      case_bool_decide.
      * destruct (execute_scoped s w k name file created Hn) as [Hex Hcr].
        destruct (execute s w k name file) as [evs [|r]];
          rewrite trace_prepend; simpl in Hex, Hcr;
          (apply scoped_app; [done|rewrite Hcr]).
        -- by apply IHa.
        -- by apply scoped_Remove.
      * destruct (writeString w k file line) as [e|].
        -- simpl. split_and!; [done..|]. by apply scoped_Remove.
        -- rewrite trace_prepend. simpl. split.
           ++ by intros n [= <-].
           ++ by apply IHr.
Qed.

(** X2.  The handler makes up no path: whenever an event of its trace
    names a path (the file written or closed, the path removed, the script
    argument of the shell), [os.CreateTemp] has returned that path to the
    handler earlier on the same connection.  This is about paths, not
    about files: [os.Remove] and the shell go by the path, and which file
    is found there is up to the directory (see
    [late_removal_hits_other_file]). *)
Theorem handler_names_own_paths
        (s : Service) (w : World) (conn : Conn)
        (before after : list Event) (ev : Event) (name : string) :
  trace (HandleConnection s w conn) = before ++ ev :: after →
  touches ev = Some name →
  CreateTemp name ∈ before.
Proof.
  intros Htr Hev.
  destruct (scoped_split _ _ _ _ _ []
              (proj1 (loops_scoped s w _ _ _) 0 [] [] (reflexivity _))
              Htr Hev) as [Hin|Hin]; [|done].
  by apply elem_of_nil in Hin.
Qed.

Lemma handler_names_own_paths_witness :
  CreateTemp (sample.tmpName 0)
  ∈ [CreateTemp (sample.tmpName 0);
     WriteString (sample.tmpName 0) ("ls -la" +:+ NL);
     Close (sample.tmpName 0)].
Proof.
  refine (handler_names_own_paths sample.withExport sample.calm
            {| input := sample.upload; readErr := EOF |} _
            [ConnWrite ("ls -la" +:+ NL); Remove (sample.tmpName 0);
             Log LevelInfo "script executed successfully" [];
             Remove (sample.tmpName 0)]
            (Start (command sample.withExport sample.calm 0 (sample.tmpName 0))
                   ("ls -la" +:+ NL))
            (sample.tmpName 0) _ _).
  - vm_compute. reflexivity.
  - reflexivity.
Defined.

(** ** The commands of a connection *)

Lemma started_execute (s : Service) (w : World) (k : nat) (name file : string) :
  started (execute s w k name file).1 = [] ∧
  (execute s w k name file).2 = Return RetNil ∨
  started (execute s w k name file).1 = [(command s w k name, file)].
Proof.
  unfold execute.
  destruct (run w k (command s w k name) file) as [e|out er [e|]]; simpl;
    [left; done|right..]; repeat case_bool_decide; reflexivity.
Qed.

Lemma loops_started (s : Service) (w : World) (rest : string) (err : error)
      (ls : list string) :
  (∀ k defers i c script,
     started (trace (awaitMarker s w rest err k defers ls)) !! i
     = Some (c, script) →
     ∃ name, createTemp w (k + i) = inr name ∧ c = command s w (k + i) name) ∧
  (∀ k name defers M file i c script,
     createTemp w k = inr name →
     started (trace (receiveScript s w rest err k name defers M file ls)) !! i
     = Some (c, script) →
     ∃ name', createTemp w (k + i) = inr name' ∧
              c = command s w (k + i) name').
Proof.
  induction ls as [|line ls [IHa IHr]].
  - split.
    + intros k defers i c script. simpl. rewrite started_app, started_Remove.
      destruct (errors_Is_EOF err); simpl; by rewrite lookup_nil.
    + intros k name defers M file i c script _. simpl.
      rewrite started_app, started_Remove.
      case_bool_decide; simpl; by rewrite lookup_nil.
  - split.
    + intros k defers i c script. rewrite awaitMarker_cons.
      case_bool_decide.
      { simpl. rewrite started_Remove. by rewrite lookup_nil. }
      case_bool_decide; [apply IHa|].
      destruct (createTemp w k) as [e|name] eqn:Hc.
      * simpl. rewrite started_Remove. by rewrite lookup_nil.
      * rewrite trace_prepend. simpl. by apply IHr.
    + intros k name defers M file i c script Hc. rewrite receiveScript_cons.
      case_bool_decide.
      * destruct (started_execute s w k name file) as [[Hst Hn]|Hst];
          destruct (execute s w k name file) as [evs nxt]; simpl in *.
        -- subst nxt. rewrite trace_prepend, started_app, Hst. simpl.
           rewrite started_Remove. by rewrite lookup_nil.
        -- destruct nxt as [|r]; rewrite trace_prepend, started_app, Hst.
           ++ destruct i as [|i]; simpl.
              ** intros [= <- <-]. exists name.
                 by rewrite Nat.add_0_r.
              ** intros Hi. apply IHa in Hi.
                 by replace (k + S i) with (S k + i) by lia.
           ++ simpl. rewrite started_Remove.
              destruct i as [|i]; simpl.
              ** intros [= <- <-]. exists name.
                 by rewrite Nat.add_0_r.
              ** by rewrite lookup_nil.
      * destruct (writeString w k file line) as [e|].
        -- simpl. rewrite started_Remove. by rewrite lookup_nil.
        -- rewrite trace_prepend. simpl. by apply IHr.
Qed.

(** X3.  The i-th process that a connection starts is the resolved shell
    with the arguments [-l] and the i-th spool file created for that
    connection, in the environment built from the exports. *)
Theorem ith_command_runs_ith_spool_file
        (s : Service) (w : World) (conn : Conn) (i : nat) (c : Cmd)
        (script : string) :
  started (trace (HandleConnection s w conn)) !! i = Some (c, script) →
  ∃ name, createTemp w i = inr name ∧
          Path c = cmd s ∧ Args c = [cmd s; "-l"; name] ∧
          Env c = append None (export s w i).
Proof.
  intros Hi.
  destruct (proj1 (loops_started s w _ _ _) 0 [] i c script Hi)
    as (name & Hname & ->).
  by exists name.
Qed.

Lemma ith_command_runs_ith_spool_file_witness :
  ∃ name, createTemp sample.failingOnce 1 = inr name ∧
          Path (command sample.noExport sample.failingOnce 1 (sample.tmpName 1))
          = cmd sample.noExport ∧
          Args (command sample.noExport sample.failingOnce 1 (sample.tmpName 1))
          = [cmd sample.noExport; "-l"; name] ∧
          Env (command sample.noExport sample.failingOnce 1 (sample.tmpName 1))
          = append None (export sample.noExport sample.failingOnce 1).
Proof.
  refine (ith_command_runs_ith_spool_file sample.noExport sample.failingOnce
            {| input := sample.upload +:+ sample.upload; readErr := EOF |}
            1 _ ("ls -la" +:+ NL) _).
  vm_compute. reflexivity.
Defined.

(** ** Whole uploads, from the bytes on the wire *)

Lemma frame_NL (data : string) :
  frame (NL +:+ data) = (NL :: (frame data).1, (frame data).2).
Proof.
  change (NL +:+ data) with (String nl data). simpl.
  by destruct (frame data) as [ls p].
Qed.

Lemma frame_line (b data : string) :
  unterminated b →
  frame ((b +:+ NL) +:+ data) = ((b +:+ NL) :: (frame data).1, (frame data).2).
Proof.
  induction b as [|c b IH]; intros Hb.
  - apply frame_NL.
  - destruct Hb as [Hc Hb].
    change (frame (String c ((b +:+ NL) +:+ data))
            = (String c (b +:+ NL) :: (frame data).1, (frame data).2)).
    simpl. rewrite (IH Hb). simpl. by rewrite decide_False.
Qed.

(** The lines of a script, each with its newline. *)
Lemma frame_script (body : list string) (data : string) :
  Forall unterminated body →
  frame (concat ((λ b, b +:+ NL) <$> body) +:+ data)
  = (((λ b, b +:+ NL) <$> body) ++ (frame data).1, (frame data).2).
Proof.
  induction 1 as [|b body Hb _ IH].
  - change (frame data = ((frame data).1, (frame data).2)).
    by destruct (frame data).
  - rewrite fmap_cons.
    change (concat ((b +:+ NL) :: ((λ b, b +:+ NL) <$> body)))
      with ((b +:+ NL) +:+ concat ((λ b, b +:+ NL) <$> body)).
    rewrite append_assoc, (frame_line _ _ Hb), IH. done.
Qed.

Lemma frame_replicate_NL (j : nat) (data : string) :
  frame (concat (replicate j NL) +:+ data)
  = (replicate j NL ++ (frame data).1, (frame data).2).
Proof.
  induction j as [|j IH].
  - change (frame data = ((frame data).1, (frame data).2)).
    by destruct (frame data).
  - change (concat (replicate (S j) NL))
      with (NL +:+ concat (replicate j NL)).
    rewrite append_assoc, frame_NL, IH. done.
Qed.

(** X4.  Empty lines sent where a marker is expected are skipped: the
    handler does exactly what it does when they are not sent. *)
Theorem empty_marker_lines_skipped
        (s : Service) (w : World) (j : nat) (data : string) (err : error) :
  HandleConnection s w
    {| input := concat (replicate j NL) +:+ data; readErr := err |}
  = HandleConnection s w {| input := data; readErr := err |}.
Proof.
  unfold HandleConnection, NewReader. simpl.
  rewrite frame_replicate_NL. simpl. apply awaitMarker_empty.
Qed.

(** One cycle, from the marker line to the decision, when the spool file
    is created and written without failure. *)
Lemma awaitMarker_cycle (s : Service) (w : World) (rest : string) (err : error)
      (k : nat) (defers : list string) (M name : string) (body : list string)
      (ls : list string) :
  M ≠ "" →
  Forall (λ b, b ≠ M) body →
  createTemp w k = inr name →
  (∀ file line, writeString w k file line = None) →
  awaitMarker s w rest err k defers
    ((M +:+ NL) :: ((λ b, b +:+ NL) <$> body) ++ (M +:+ NL) :: ls)
  = (CreateTemp name :: (WriteString name <$> ((λ b, b +:+ NL) <$> body)))
    +> match execute s w k name (concat ((λ b, b +:+ NL) <$> body)) with
       | (evs, Return r) => evs +> returning (name :: defers) r
       | (evs, Continue) =>
           evs +> awaitMarker s w rest err (S k) (name :: defers) ls
       end.
Proof.
  intros HM Hbody Hc Hw.
  rewrite awaitMarker_marker, Hc by done.
  rewrite (receiveScript_body s w rest err k name _ M); [|
    apply Forall_fmap; eapply Forall_impl; [exact Hbody|];
    intros b Hb; simpl; by rewrite trimNewline_line | done].
  rewrite receiveScript_cons, trimNewline_line, bool_decide_eq_true_2 by done.
  done.
Qed.

Lemma sent_app (t1 t2 : list Event) : sent (t1 ++ t2) = sent t1 +:+ sent t2.
Proof. unfold sent. by rewrite written_app, concat_app. Qed.

Lemma sent_relay (out er : string) :
  sent ((if bool_decide (0 < len out) then [ConnWrite out] else []) ++
        (if bool_decide (0 < len er) then [ConnWrite er] else []))
  = out +:+ er.
Proof.
  assert (∀ x : string, ¬ 0 < len x → x = "") as Hlen.
  { intros x Hx. apply len_0. lia. }
  unfold sent. repeat case_bool_decide;
    repeat match goal with
           | H : ¬ 0 < len ?x |- _ => apply Hlen in H; subst x
           end;
    simpl; by rewrite ?append_nil_r.
Qed.

Lemma sent_spool (name : string) (lines : list string) :
  sent (CreateTemp name :: (WriteString name <$> lines)) = "".
Proof. unfold sent. simpl. by rewrite written_WriteString. Qed.

Lemma started_spool (name : string) (lines : list string) :
  started (CreateTemp name :: (WriteString name <$> lines)) = [].
Proof. simpl. apply started_WriteString. Qed.

Lemma sent_Remove (defers : list string) : sent (Remove <$> defers) = "".
Proof. unfold sent. by rewrite written_Remove. Qed.

Lemma sent_execute (s : Service) (w : World) (k : nat) (name file : string)
      (out er : string) (cmdErr : option error) :
  run w k (command s w k name) file = Exited out er cmdErr →
  sent (execute s w k name file).1
  = out +:+ er +:+ match cmdErr with
                   | Some e => errorLine "script execution failed" e
                   | None => ""
                   end ∧
  started (execute s w k name file).1 = [(command s w k name, file)] ∧
  (execute s w k name file).2
  = match cmdErr with Some _ => Continue | None => Return RetNil end.
Proof.
  intros Hrun. unfold execute. rewrite Hrun.
  assert (∀ tl : list Event,
             sent (([Close name; Start (command s w k name) file]
                    ++ ((if bool_decide (0 < len out) then [ConnWrite out] else [])
                        ++ (if bool_decide (0 < len er) then [ConnWrite er] else []))
                    ++ [Remove name]) ++ tl)
             = out +:+ er +:+ sent tl) as Hsent.
  { intros tl.
    rewrite (sent_app _ tl), (sent_app [_; _]), (sent_app _ [Remove name]).
    rewrite sent_relay.
    change (sent [Close name; Start (command s w k name) file]) with "".
    change (sent [Remove name]) with "".
    rewrite append_nil_r, !append_assoc. reflexivity. }
  destruct cmdErr as [e|]; cbn [fst snd]; rewrite Hsent; split_and!; try done.
  - unfold sent. simpl. by rewrite append_nil_r.
  - rewrite !started_app. repeat case_bool_decide; reflexivity.
  - rewrite !started_app. repeat case_bool_decide; reflexivity.
Qed.

(** X5.  A client that sends a marker line, a script none of whose lines
    is the marker, and the marker line again, on a machine where the spool
    file can be created and written and the shell exits with status zero,
    receives the standard output of the shell followed by its standard
    error, and nothing else; the shell was run once, on a file holding
    exactly the script; the handler returns nil and the connection is
    closed, whatever the client sends afterwards. *)
Theorem upload_succeeds
        (s : Service) (w : World) (M : string) (body : list string)
        (more : string) (err : error) (name out er : string) :
  M ≠ "" → unterminated M →
  Forall unterminated body → Forall (λ b, b ≠ M) body →
  createTemp w 0 = inr name →
  (∀ file line, writeString w 0 file line = None) →
  run w 0 (command s w 0 name) (concat ((λ b, b +:+ NL) <$> body))
  = Exited out er None →
  let script := concat ((λ b, b +:+ NL) <$> body) in
  let o := serve s w {| input := (M +:+ NL) +:+ script +:+ (M +:+ NL) +:+ more;
                        readErr := err |} in
  ret o = RetNil ∧
  sent (trace o) = out +:+ er ∧
  started (trace o) = [(command s w 0 name, script)] ∧
  last (trace o) = Some ConnClose.
Proof.
  intros HM HMu Hu Hbody Hc Hw Hrun script o.
  destruct (sent_execute s w 0 name script out er None Hrun)
    as (Hsent & Hstarted & Hnext).
  assert (HandleConnection s w
            {| input := (M +:+ NL) +:+ script +:+ (M +:+ NL) +:+ more;
               readErr := err |}
          = (CreateTemp name :: (WriteString name <$> ((λ b, b +:+ NL) <$> body)))
            +> (execute s w 0 name script).1
            +> returning [name] RetNil) as Ho.
  { unfold HandleConnection, NewReader. cbn [input readErr lines partial fin].
    rewrite (frame_line _ _ HMu). unfold script.
    rewrite (frame_script _ _ Hu), (frame_line _ _ HMu). cbn [fst snd].
    rewrite (awaitMarker_cycle s w _ _ 0 [] M name body _ HM Hbody Hc Hw).
    fold script. destruct (execute s w 0 name script) as [evs nxt].
    simpl in Hnext. by subst nxt. }
  unfold o, serve. rewrite Ho. clear Ho. cbn [ret trace].
  rewrite !trace_prepend, !ret_prepend.
  change (trace (returning [name] RetNil)) with (Remove <$> [name]).
  split_and!.
  - done.
  - rewrite !sent_app, sent_spool, Hsent, sent_Remove.
    change (sent [ConnClose]) with "".
    rewrite !append_nil_r. reflexivity.
  - rewrite !started_app, started_spool, Hstarted, started_Remove. done.
  - apply last_snoc.
Qed.

Lemma upload_succeeds_witness :
  sent (trace (serve sample.withExport sample.calm
                 {| input := ("EOF" +:+ NL)
                             +:+ concat ((λ b, b +:+ NL) <$> ["ls -la"; "pwd"])
                             +:+ ("EOF" +:+ NL) +:+ "ignored";
                    readErr := EOF |}))
  = concat ((λ b, b +:+ NL) <$> ["ls -la"; "pwd"]) +:+ "".
Proof.
  refine (proj1 (proj2 (upload_succeeds sample.withExport sample.calm "EOF"
            ["ls -la"; "pwd"] "ignored" EOF (sample.tmpName 0)
            (concat ((λ b, b +:+ NL) <$> ["ls -la"; "pwd"])) ""
            _ _ _ _ _ _ _))).
  - discriminate.
  - repeat split; discriminate.
  - repeat constructor; discriminate.
  - repeat constructor; discriminate.
  - reflexivity.
  - reflexivity.
  - reflexivity.
Defined.

(** ** A failed script and what follows *)

Lemma followedBy_prepend (evs : list Event) (o : Outcome) (tl : list Event) :
  followedBy (evs +> o) tl = evs +> followedBy o tl.
Proof. unfold followedBy, prepend. simpl. by rewrite app_assoc. Qed.

Lemma followedBy_returning (defers extra : list string) (r : Ret) :
  followedBy (returning defers r) (Remove <$> extra)
  = returning (defers ++ extra) r.
Proof. unfold followedBy, returning. simpl. by rewrite fmap_app. Qed.

(** From cycle [n] on, with more deferred removals pending, the loops do
    what they do from the start in the world shifted by [n], and the
    pending removals come last. *)
Lemma loops_shift (s : Service) (w : World) (rest : string) (err : error)
      (n : nat) (extra : list string) (ls : list string) :
  (∀ k defers,
     awaitMarker s w rest err (n + k) (defers ++ extra) ls
     = followedBy (awaitMarker s (shift n w) rest err k defers ls)
                  (Remove <$> extra)) ∧
  (∀ k name defers M file,
     receiveScript s w rest err (n + k) name (defers ++ extra) M file ls
     = followedBy (receiveScript s (shift n w) rest err k name defers M file ls)
                  (Remove <$> extra)).
Proof.
  induction ls as [|line ls [IHa IHr]].
  - split; intros; simpl;
      by rewrite followedBy_prepend, followedBy_returning.
  - split.
    + intros k defers. rewrite !awaitMarker_cons.
      case_bool_decide; [by rewrite followedBy_returning|].
      case_bool_decide; [apply IHa|].
      change (createTemp (shift n w) k) with (createTemp w (n + k)).
      destruct (createTemp w (n + k)) as [e|name].
      * by rewrite followedBy_prepend, followedBy_returning.
      * rewrite followedBy_prepend.
        change (name :: defers ++ extra) with ((name :: defers) ++ extra).
        by rewrite IHr.
    + intros k name defers M file. rewrite !receiveScript_cons.
      case_bool_decide.
      * change (execute s (shift n w) k name file)
          with (execute s w (n + k) name file).
        destruct (execute s w (n + k) name file) as [evs [|r]];
          rewrite followedBy_prepend.
        -- replace (S (n + k)) with (n + S k) by lia. by rewrite IHa.
        -- by rewrite followedBy_returning.
      * change (writeString (shift n w) k file line)
          with (writeString w (n + k) file line).
        destruct (writeString w (n + k) file line) as [e|].
        -- by rewrite followedBy_prepend, followedBy_returning.
        -- rewrite followedBy_prepend. by rewrite IHr.
Qed.

(** X6.  When the script of the first cycle fails, the client receives
    the output of the shell, its errors and the line "error: script
    execution failed: ...", and then the connection goes on exactly like a
    fresh connection that carries the rest of the input (and meets the
    world one cycle later); the only trace the failed cycle leaves is one
    more removal of its spool file when the handler returns. *)
Theorem upload_fails_then_continues
        (s : Service) (w : World) (M : string) (body : list string)
        (more : string) (err : error) (name out er : string) (e : error) :
  M ≠ "" → unterminated M →
  Forall unterminated body → Forall (λ b, b ≠ M) body →
  createTemp w 0 = inr name →
  (∀ file line, writeString w 0 file line = None) →
  run w 0 (command s w 0 name) (concat ((λ b, b +:+ NL) <$> body))
  = Exited out er (Some e) →
  let script := concat ((λ b, b +:+ NL) <$> body) in
  let o := HandleConnection s w
             {| input := (M +:+ NL) +:+ script +:+ (M +:+ NL) +:+ more;
                readErr := err |} in
  let o' := HandleConnection s (shift 1 w) {| input := more; readErr := err |} in
  ret o = ret o' ∧
  ∃ evs, trace o = evs ++ trace o' ++ [Remove name] ∧
         sent evs = out +:+ er +:+ errorLine "script execution failed" e ∧
         started evs = [(command s w 0 name, script)].
Proof.
  intros HM HMu Hu Hbody Hc Hw Hrun script o o'.
  destruct (sent_execute s w 0 name script out er (Some e) Hrun)
    as (Hsent & Hstarted & Hnext).
  assert (o = (CreateTemp name
               :: (WriteString name <$> ((λ b, b +:+ NL) <$> body)))
               +> (execute s w 0 name script).1
               +> followedBy o' [Remove name]) as Ho.
  { unfold o, o', HandleConnection, NewReader.
    cbn [input readErr lines partial fin].
    rewrite (frame_line _ _ HMu). unfold script.
    rewrite (frame_script _ _ Hu), (frame_line _ _ HMu). cbn [fst snd].
    rewrite (awaitMarker_cycle s w _ _ 0 [] M name body _ HM Hbody Hc Hw).
    fold script. destruct (execute s w 0 name script) as [evs nxt].
    simpl in Hnext. subst nxt. cbn [fst].
    by rewrite (proj1 (loops_shift s w _ err 1 [name] _) 0 []). }
  rewrite Ho. split; [done|].
  exists ((CreateTemp name :: (WriteString name <$> ((λ b, b +:+ NL) <$> body)))
          ++ (execute s w 0 name script).1).
  split_and!.
  - rewrite !trace_prepend. unfold followedBy. simpl trace.
    by rewrite <- !app_assoc.
  - rewrite sent_app, sent_spool, Hsent. reflexivity.
  - rewrite started_app, started_spool, Hstarted. reflexivity.
Qed.

Lemma upload_fails_then_continues_witness :
  ret (HandleConnection sample.noExport sample.failingOnce
         {| input := ("EOF" +:+ NL)
                     +:+ concat ((λ b, b +:+ NL) <$> ["exit 1"])
                     +:+ ("EOF" +:+ NL) +:+ sample.upload;
            readErr := EOF |})
  = ret (HandleConnection sample.noExport (shift 1 sample.failingOnce)
           {| input := sample.upload; readErr := EOF |}).
Proof.
  refine (proj1 (upload_fails_then_continues sample.noExport
            sample.failingOnce "EOF" ["exit 1"] sample.upload EOF
            (sample.tmpName 0) (concat ((λ b, b +:+ NL) <$> ["exit 1"])) "oops"
            (errorString "exit status 1") _ _ _ _ _ _ _)).
  - discriminate.
  - repeat split; discriminate.
  - repeat constructor; discriminate.
  - repeat constructor; discriminate.
  - reflexivity.
  - reflexivity.
  - reflexivity.
Defined.

(** ** Failures inside a cycle *)

(** The lines written before a write fails or the marker comes back. *)
Lemma receiveScript_written (s : Service) (w : World) (rest : string)
      (err : error) (k : nat) (name : string) (defers : list string)
      (M : string) (written : list string) :
  Forall (λ line, trimNewline line ≠ M) written →
  ∀ file ls,
    (∀ i line, written !! i = Some line →
               writeString w k (file +:+ concat (take i written)) line = None) →
    receiveScript s w rest err k name defers M file (written ++ ls)
    = (WriteString name <$> written)
      +> receiveScript s w rest err k name defers M (file +:+ concat written) ls.
Proof.
  induction 1 as [|line written Hline _ IH]; intros file ls Hw.
  - simpl. by rewrite append_nil_r, prepend_nil.
  - simpl app. rewrite receiveScript_cons.
    rewrite bool_decide_eq_false_2 by done.
    pose proof (Hw 0 line eq_refl) as H0. simpl in H0.
    rewrite append_nil_r in H0. rewrite H0, IH.
    + simpl concat. by rewrite append_assoc.
    + intros i l Hi. specialize (Hw (S i) l Hi). simpl in Hw.
      by rewrite append_assoc.
Qed.

(** X7.  When writing a line of the script to the spool file fails, the
    lines before it have been written, the client receives the single line
    "error: failed to write script: ...", no shell is started, the spool
    file is removed, the handler returns nil and the connection is closed
    without reading further. *)
Theorem spool_write_failure
        (s : Service) (w : World) (M : string) (body : list string)
        (b more : string) (err : error) (name : string) (e : error) :
  M ≠ "" → unterminated M →
  Forall unterminated body → Forall (λ b, b ≠ M) body →
  unterminated b → b ≠ M →
  createTemp w 0 = inr name →
  (∀ i x, body !! i = Some x →
          writeString w 0 (concat ((λ b, b +:+ NL) <$> take i body))
                      (x +:+ NL) = None) →
  writeString w 0 (concat ((λ b, b +:+ NL) <$> body)) (b +:+ NL) = Some e →
  serve s w {| input := (M +:+ NL) +:+ concat ((λ b, b +:+ NL) <$> body)
                        +:+ (b +:+ NL) +:+ more;
               readErr := err |}
  = {| ret := RetNil;
       trace := [CreateTemp name]
                ++ (WriteString name <$> ((λ b, b +:+ NL) <$> body))
                ++ [ConnWrite (errorLine "failed to write script" e);
                    Log LevelWarn "failed to write script" [("error", Error e)];
                    Remove name; ConnClose] |}.
Proof.
  intros HM HMu Hu Hbody Hbu Hb Hc Hw He.
  unfold serve, HandleConnection, NewReader.
  cbn [input readErr lines partial fin].
  rewrite (frame_line _ _ HMu), (frame_script _ _ Hu), (frame_line _ _ Hbu).
  cbn [fst snd].
  rewrite awaitMarker_marker, Hc by done.
  rewrite (receiveScript_written s w _ err 0 name _ M).
  - rewrite receiveScript_cons, trimNewline_line.
    rewrite bool_decide_eq_false_2 by done.
    change ("" +:+ ?x) with x. rewrite He.
    unfold prepend, returning. simpl. f_equal.
    by rewrite <- !app_assoc.
  - apply Forall_fmap. eapply Forall_impl; [exact Hbody|].
    intros x Hx. simpl. by rewrite trimNewline_line.
  - intros i line Hi. change ("" +:+ ?x) with x.
    rewrite list_lookup_fmap in Hi.
    destruct (body !! i) as [x|] eqn:Hx; [|done].
    injection Hi as <-. rewrite <- fmap_take. by apply Hw.
Qed.

Lemma spool_write_failure_witness :
  serve sample.withExport sample.diskFull
        {| input := ("EOF" +:+ NL) +:+ concat ((λ b, b +:+ NL) <$> ["ls -la"])
                    +:+ ("pwd" +:+ NL) +:+ "EOF" +:+ NL;
           readErr := EOF |}
  = {| ret := RetNil;
       trace := [CreateTemp (sample.tmpName 0)]
                ++ (WriteString (sample.tmpName 0)
                    <$> ((λ b, b +:+ NL) <$> ["ls -la"]))
                ++ [ConnWrite (errorLine "failed to write script"
                                 (errorString "no space left on device"));
                    Log LevelWarn "failed to write script"
                        [("error", "no space left on device")];
                    Remove (sample.tmpName 0); ConnClose] |}.
Proof.
  refine (spool_write_failure sample.withExport sample.diskFull "EOF"
            ["ls -la"] "pwd" ("EOF" +:+ NL) EOF (sample.tmpName 0)
            (errorString "no space left on device") _ _ _ _ _ _ _ _ _).
  - discriminate.
  - repeat split; discriminate.
  - repeat constructor; discriminate.
  - repeat constructor; discriminate.
  - repeat split; discriminate.
  - discriminate.
  - reflexivity.
  - intros [|i] x Hx; [|done]. injection Hx as <-. reflexivity.
  - reflexivity.
Defined.

(** X8.  When the shell cannot be started, the client receives the single
    line "error: failed to start shell: ...", nothing has been relayed, the
    spool file holds the whole script and is removed when the handler
    returns nil; the connection is closed and further input is not
    read. *)
Theorem shell_start_failure
        (s : Service) (w : World) (M : string) (body : list string)
        (more : string) (err : error) (name : string) (e : error) :
  M ≠ "" → unterminated M →
  Forall unterminated body → Forall (λ b, b ≠ M) body →
  createTemp w 0 = inr name →
  (∀ file line, writeString w 0 file line = None) →
  run w 0 (command s w 0 name) (concat ((λ b, b +:+ NL) <$> body))
  = StartFailed e →
  serve s w {| input := (M +:+ NL) +:+ concat ((λ b, b +:+ NL) <$> body)
                        +:+ (M +:+ NL) +:+ more;
               readErr := err |}
  = {| ret := RetNil;
       trace := [CreateTemp name]
                ++ (WriteString name <$> ((λ b, b +:+ NL) <$> body))
                ++ [Close name;
                    ConnWrite (errorLine "failed to start shell" e);
                    Log LevelWarn "failed to start shell" [("error", Error e)];
                    Remove name; ConnClose] |}.
Proof.
  intros HM HMu Hu Hbody Hc Hw Hrun.
  unfold serve, HandleConnection, NewReader.
  cbn [input readErr lines partial fin].
  rewrite (frame_line _ _ HMu), (frame_script _ _ Hu), (frame_line _ _ HMu).
  cbn [fst snd].
  rewrite (awaitMarker_cycle s w _ _ 0 [] M name body _ HM Hbody Hc Hw).
  unfold execute. rewrite Hrun.
  unfold prepend, returning. simpl. f_equal.
  by rewrite <- !app_assoc.
Qed.

Lemma shell_start_failure_witness :
  serve sample.withExport sample.noShell
        {| input := ("EOF" +:+ NL) +:+ concat ((λ b, b +:+ NL) <$> ["ls -la"])
                    +:+ ("EOF" +:+ NL) +:+ sample.upload;
           readErr := EOF |}
  = {| ret := RetNil;
       trace := [CreateTemp (sample.tmpName 0)]
                ++ (WriteString (sample.tmpName 0)
                    <$> ((λ b, b +:+ NL) <$> ["ls -la"]))
                ++ [Close (sample.tmpName 0);
                    ConnWrite (errorLine "failed to start shell"
                                 (errorString "permission denied"));
                    Log LevelWarn "failed to start shell"
                        [("error", "permission denied")];
                    Remove (sample.tmpName 0); ConnClose] |}.
Proof.
  refine (shell_start_failure sample.withExport sample.noShell "EOF"
            ["ls -la"] sample.upload EOF (sample.tmpName 0)
            (errorString "permission denied") _ _ _ _ _ _ _).
  - discriminate.
  - repeat split; discriminate.
  - repeat constructor; discriminate.
  - repeat constructor; discriminate.
  - reflexivity.
  - reflexivity.
  - reflexivity.
Defined.

(** X9.  When the spool file cannot be created, the marker line is the
    last thing the handler reads: the client receives the single line
    "error: failed to create temp file: ...", nothing is created, started
    or removed, and the handler returns the error of [os.CreateTemp]. *)
Theorem spool_creation_failure
        (s : Service) (w : World) (j : nat) (M more : string) (err e : error) :
  M ≠ "" → unterminated M →
  createTemp w 0 = inl e →
  serve s w {| input := concat (replicate j NL) +:+ (M +:+ NL) +:+ more;
               readErr := err |}
  = {| ret := RetErr e;
       trace := [ConnWrite (errorLine "failed to create temp file" e);
                 Log LevelError "failed to create temp file"
                     [("error", Error e)];
                 ConnClose] |}.
Proof.
  intros HM HMu Hc.
  unfold serve, HandleConnection, NewReader.
  cbn [input readErr lines partial fin].
  rewrite frame_replicate_NL, (frame_line _ _ HMu). cbn [fst snd].
  rewrite awaitMarker_empty, awaitMarker_marker, Hc by done.
  reflexivity.
Qed.

Lemma spool_creation_failure_witness :
  serve sample.withExport sample.noSpace
        {| input := concat (replicate 2 NL) +:+ ("EOF" +:+ NL) +:+ "ls" +:+ NL;
           readErr := EOF |}
  = {| ret := RetErr (errorString "no space left on device");
       trace := [ConnWrite (errorLine "failed to create temp file"
                              (errorString "no space left on device"));
                 Log LevelError "failed to create temp file"
                     [("error", "no space left on device")];
                 ConnClose] |}.
Proof.
  refine (spool_creation_failure sample.withExport sample.noSpace 2 "EOF"
            ("ls" +:+ NL) EOF (errorString "no space left on device") _ _ _).
  - discriminate.
  - repeat split; discriminate.
  - reflexivity.
Defined.

(** ** An end of stream wrapped in another error *)

(** X10.  The two loops do not treat alike a read error that wraps
    [io.EOF] without being [io.EOF]: while a marker is awaited it counts as
    the end of the stream and the handler returns silently, but once a
    script is being received it is reported to the client as "failed to
    read script". *)
Theorem wrapped_EOF_asymmetry
        (s : Service) (w : World) (M : string) (body : list string)
        (p : string) (err : error) (name : string) :
  errors_Is_EOF err = true → err ≠ EOF →
  M ≠ "" → unterminated M →
  Forall unterminated body → Forall (λ b, b ≠ M) body →
  unterminated p →
  createTemp w 0 = inr name →
  (∀ file line, writeString w 0 file line = None) →
  written (trace (HandleConnection s w {| input := p; readErr := err |})) = [] ∧
  written (trace (HandleConnection s w
                    {| input := (M +:+ NL)
                                +:+ concat ((λ b, b +:+ NL) <$> body) +:+ p;
                       readErr := err |}))
  = [errorLine "failed to read script" err].
Proof.
  intros Heof Hne HM HMu Hu Hbody Hp Hc Hw. split.
  - unfold HandleConnection, NewReader. cbn [input readErr lines partial fin].
    rewrite (frame_unterminated _ Hp). cbn [fst snd]. simpl.
    by rewrite Heof.
  - unfold HandleConnection, NewReader. cbn [input readErr lines partial fin].
    rewrite (frame_line _ _ HMu), (frame_script _ _ Hu).
    rewrite (frame_unterminated _ Hp). cbn [fst snd].
    rewrite awaitMarker_marker, Hc by done.
    rewrite (receiveScript_body s w _ err 0 name _ M); [|
      apply Forall_fmap; eapply Forall_impl; [exact Hbody|];
      intros b Hb; simpl; by rewrite trimNewline_line | done].
    simpl receiveScript. rewrite bool_decide_eq_true_2 by done.
    rewrite !trace_prepend, !written_app, written_WriteString.
    change (trace (returning [name] RetNil)) with (Remove <$> [name]).
    by rewrite written_Remove.
Qed.

Lemma wrapped_EOF_asymmetry_witness :
  written (trace (HandleConnection sample.withExport sample.calm
                    {| input := "EO";
                       readErr := wrapError "read tcp: EOF" EOF |})) = [] ∧
  written (trace (HandleConnection sample.withExport sample.calm
                    {| input := ("EOF" +:+ NL)
                                +:+ concat ((λ b, b +:+ NL) <$> ["ls"]) +:+ "EO";
                       readErr := wrapError "read tcp: EOF" EOF |}))
  = [errorLine "failed to read script" (wrapError "read tcp: EOF" EOF)].
Proof.
  refine (wrapped_EOF_asymmetry sample.withExport sample.calm "EOF" ["ls"]
            "EO" (wrapError "read tcp: EOF" EOF) (sample.tmpName 0)
            _ _ _ _ _ _ _ _ _).
  - reflexivity.
  - discriminate.
  - discriminate.
  - repeat split; discriminate.
  - repeat constructor; discriminate.
  - repeat constructor; discriminate.
  - repeat split; discriminate.
  - reflexivity.
  - reflexivity.
Defined.

(* ===================================================================== *)
(** * Package server *)
(* ===================================================================== *)

Lemma command_lift (s : server.Service) (w : World) (k : nat) (name : string) :
  rangeMap w k [] = [] →
  command (lift s) w k name = server.command s name.
Proof.
  intros Hr. unfold command, export, server.command. simpl.
  by rewrite map_to_list_empty, Hr.
Qed.

Lemma loops_lift (s : server.Service) (w : World) (rest : string) (err : error)
      (ls : list string) :
  (∀ k, rangeMap w k [] = []) →
  errors_Is_EOF err = bool_decide (err = EOF) →
  (∀ k defers, server.awaitMarker s w rest err k defers ls
               = awaitMarker (lift s) w rest err k defers ls) ∧
  (∀ k name defers M file,
      server.receiveScript s w rest err k name defers M file ls
      = receiveScript (lift s) w rest err k name defers M file ls).
Proof.
  intros Hr Heof. induction ls as [|line ls [IHa IHr]].
  - split; [|done]. intros k defers. simpl. rewrite Heof.
    by repeat case_bool_decide.
  - split.
    + intros k defers. rewrite awaitMarker_cons. simpl.
      destruct (bool_decide (len line = 0)); [reflexivity|].
      destruct (bool_decide (len (slice_to line (len line - 1)) = 0));
        [apply IHa|].
      destruct (createTemp w k); [reflexivity|]. by rewrite IHr.
    + intros k name defers M file. rewrite receiveScript_cons. simpl.
      assert (server.execute s w k name file
              = execute (lift s) w k name file) as ->.
      { unfold server.execute, execute.
        rewrite command_lift by apply Hr. reflexivity. }
      destruct (bool_decide (trimNewline line = M)).
      * destruct (execute (lift s) w k name file) as [evs [|r]];
          [by rewrite IHa|reflexivity].
      * destruct (writeString w k file line); [reflexivity|]. by rewrite IHr.
Qed.

(** X11.  The handler of package [server] is the handler of package [srv]
    for a service without exports: on every connection whose read error is
    [io.EOF] itself or does not wrap it, both return the same result after
    the same actions. *)
Theorem server_handler_is_srv_handler
        (s : server.Service) (w : World) (conn : Conn) :
  (∀ k, rangeMap w k [] = []) →
  errors_Is_EOF (readErr conn) = bool_decide (readErr conn = EOF) →
  server.HandleConnection s w conn = HandleConnection (lift s) w conn ∧
  server.serve s w conn = serve (lift s) w conn.
Proof.
  intros Hr Heof.
  assert (server.HandleConnection s w conn = HandleConnection (lift s) w conn)
    as H by by apply loops_lift.
  split; [done|]. unfold server.serve, serve. by rewrite H.
Qed.

Lemma server_handler_is_srv_handler_witness :
  server.HandleConnection sample.old sample.failingOnce
    {| input := sample.upload +:+ sample.upload;
       readErr := errorString "connection reset by peer" |}
  = HandleConnection (lift sample.old) sample.failingOnce
      {| input := sample.upload +:+ sample.upload;
         readErr := errorString "connection reset by peer" |}.
Proof.
  refine (proj1 (server_handler_is_srv_handler sample.old sample.failingOnce
            {| input := sample.upload +:+ sample.upload;
               readErr := errorString "connection reset by peer" |} _ _)).
  - reflexivity.
  - reflexivity.
Defined.

(** X12.  Where the two packages differ: when the stream ends, before any
    marker, with an error that wraps [io.EOF], the handler of package
    [server] reports "failed to read EOF marker" to the client and the
    handler of package [srv] says nothing. *)
Theorem server_reports_wrapped_EOF
        (s : server.Service) (s' : Service) (w : World) (p : string)
        (err : error) :
  errors_Is_EOF err = true → err ≠ EOF → unterminated p →
  written (trace (server.HandleConnection s w {| input := p; readErr := err |}))
  = [errorLine "failed to read EOF marker" err] ∧
  written (trace (HandleConnection s' w {| input := p; readErr := err |})) = [].
Proof.
  intros Heof Hne Hp.
  unfold server.HandleConnection, HandleConnection, NewReader.
  cbn [input readErr lines partial fin].
  rewrite (frame_unterminated _ Hp). cbn [fst snd]. simpl.
  by rewrite Heof, bool_decide_eq_true_2 by done.
Qed.

Lemma server_reports_wrapped_EOF_witness :
  written (trace (server.HandleConnection sample.old sample.calm
                    {| input := ""; readErr := wrapError "tls: EOF" EOF |}))
  = [errorLine "failed to read EOF marker" (wrapError "tls: EOF" EOF)] ∧
  written (trace (HandleConnection sample.noExport sample.calm
                    {| input := ""; readErr := wrapError "tls: EOF" EOF |}))
  = [].
Proof.
  refine (server_reports_wrapped_EOF sample.old sample.noExport sample.calm
            "" (wrapError "tls: EOF" EOF) _ _ _).
  - reflexivity.
  - discriminate.
  - exact I.
Defined.

(** ** The registry of services *)

Lemma int_isInt (z : Z) : goint.isInt z → goint.int z = z.
Proof.
  unfold goint.isInt, goint.int. intros Hz.
  rewrite Z.mod_small by lia. lia.
Qed.

Section registry.

Variable LookPath : string → error + string.

Lemma register_notin (port : Z) (shell : string) (shells : list string) :
  shell ∉ shells →
  ∀ i m, server.register LookPath port i shells m !! shell = m !! shell.
Proof.
  induction shells as [|x shells IH]; intros Hnotin i m; [done|].
  apply not_elem_of_cons in Hnotin as [Hne Hnotin]. simpl.
  destruct (LookPath x); rewrite IH by done; [done|].
  by rewrite lookup_insert_ne.
Qed.

Lemma register_unfound (port : Z) (shell : string) (e : error)
      (shells : list string) :
  LookPath shell = inl e →
  ∀ i m, m !! shell = None →
         server.register LookPath port i shells m !! shell = None.
Proof.
  intros Hl. induction shells as [|x shells IH]; intros i m Hm; [done|].
  simpl. destruct (LookPath x) as [e'|path] eqn:Hx; [by apply IH|].
  apply IH. rewrite lookup_insert_ne; [done|]. intros ->. congruence.
Qed.

Lemma register_app (port : Z) (l1 l2 : list string) :
  ∀ i m, server.register LookPath port i (l1 ++ l2) m
         = server.register LookPath port (i + List.length l1) l2
                           (server.register LookPath port i l1 m).
Proof.
  induction l1 as [|x l1 IH]; intros i m; simpl.
  - by rewrite Nat.add_0_r.
  - destruct (LookPath x); rewrite IH; f_equal; lia.
Qed.

(** X13.  [Make] of package [server] registers under its name every shell
    of the list that [exec.LookPath] finds, bound to the base port plus
    the position of the shell in the list; when a name occurs twice its
    last position counts.  A shell that is not found is left out, and its
    position is not reused: the shells after it keep their port.  No other
    name is registered. *)
Theorem Make_registers_by_position
        (port : Z) (before after : list string) (shell : string) :
  shell ∉ after →
  server.Make LookPath port (before ++ shell :: after) !! shell
  = match LookPath shell with
    | inl _ => None
    | inr path =>
        Some {| server.shell := shell; server.cmd := path;
                server.port :=
                  goint.int (port + Z.of_nat (List.length before));
                server.proto := "tcp" |}
    end ∧
  ∀ other, other ∉ before ++ shell :: after →
           server.Make LookPath port (before ++ shell :: after) !! other = None.
Proof.
  intros Hnotin. split.
  - unfold server.Make. rewrite register_app. simpl.
    destruct (LookPath shell) as [e|path] eqn:Hl.
    + eapply register_unfound; [done|].
      eapply register_unfound; [done|]. apply lookup_empty.
    + rewrite register_notin by done. by rewrite lookup_insert_eq.
  - intros other Hother. unfold server.Make.
    rewrite register_notin by done. apply lookup_empty.
Qed.

End registry.

Lemma Make_registers_by_position_witness :
  server.Make sample.onlyBash 50135 (["sh"] ++ "bash" :: ["zsh"]) !! "bash"
  = match sample.onlyBash "bash" with
    | inl _ => None
    | inr path =>
        Some {| server.shell := "bash"; server.cmd := path;
                server.port := goint.int (50135 + Z.of_nat (List.length ["sh"]));
                server.proto := "tcp" |}
    end.
Proof.
  refine (proj1 (Make_registers_by_position sample.onlyBash 50135 ["sh"]
                   ["zsh"] "bash" _)).
  intros Hin. apply list_elem_of_singleton in Hin. discriminate.
Defined.

Example Make_skips_unfound_shell :
  server.Make sample.onlyBash 50135 ["sh"; "bash"; "zsh"]
  = {[ "bash" := {| server.shell := "bash"; server.cmd := "/bin/bash";
                    server.port := 50136; server.proto := "tcp" |} ]}.
Proof. vm_compute. reflexivity. Qed.

(* ===================================================================== *)
(** * Package main: flags and arguments *)
(* ===================================================================== *)

(** ** The exports given on the command line *)

Lemma Cut_spec (s : string) :
  match Cut s with
  | (before, after, true) =>
      s = before +:+ "=" +:+ after ∧ without "="%char before
  | (before, after, false) =>
      before = s ∧ after = "" ∧ without "="%char s
  end.
Proof.
  induction s as [|c s IH]; simpl; [done|].
  destruct (decide (c = "="%char)) as [->|Hc]; [done|].
  destruct (Cut s) as [[before after] [|]].
  - destruct IH as [-> IH]. done.
  - destruct IH as (-> & -> & IH). done.
Qed.

Lemma Cut_assignment (ident value : string) :
  without "="%char ident →
  Cut (ident +:+ "=" +:+ value) = (ident, value, true).
Proof.
  induction ident as [|c ident IH]; intros Hi.
  - reflexivity.
  - destruct Hi as [Hc Hi].
    change (Cut (String c (ident +:+ "=" +:+ value))
            = (String c ident, value, true)).
    simpl. rewrite decide_False by done. by rewrite (IH Hi).
Qed.

(** X14.  [-e ARG] is accepted exactly when [ARG] contains ["="]; it then
    binds the text before the first ["="] to the text after it (which may
    be empty or contain more ["="]), replaces an earlier binding of that
    name and touches no other; and the entry [NAME=VALUE] that the handler
    builds from that binding is [ARG] again. *)
Theorem exportSet_binds
        (Quote : string → string) (f : option (gmap string string))
        (arg : string) (m : gmap string string) :
  exportSet Quote f arg = (None, Some m) →
  ∃ ident value,
    m = <[ident := value]> (default ∅ f) ∧
    assignment (ident, value) = arg ∧
    without "="%char ident ∧
    ¬ without "="%char arg.
Proof.
  unfold exportSet. pose proof (Cut_spec arg) as HS.
  destruct (Cut arg) as [[ident value] [|]]; simpl; [|done].
  destruct HS as [-> Hi]. intros [= <-].
  exists ident, value. split_and!; [by destruct f|done|done|].
  clear. induction ident as [|c ident IH]; simpl.
  - intros [H _]. done.
  - intros [_ H]. by apply IH.
Qed.

Lemma exportSet_binds_witness :
  ∃ ident value,
    ({[ "OPTS" := "a=b" ]} : gmap string string)
    = <[ident := value]> (default ∅ (Some ∅)) ∧
    assignment (ident, value) = "OPTS=a=b" ∧
    without "="%char ident ∧
    ¬ without "="%char "OPTS=a=b".
Proof.
  refine (exportSet_binds sample.quoted (Some ∅) "OPTS=a=b" _ _).
  reflexivity.
Defined.

(** X15.  [-e ARG] without ["="] in [ARG] is refused with an error, and the
    exports are left as they were; conversely every [ARG] with ["="] is
    accepted, even one that starts with it (the name is then empty). *)
Theorem exportSet_refuses
        (Quote : string → string) (f : option (gmap string string))
        (arg : string) :
  (without "="%char arg →
   ∃ e, exportSet Quote f arg = (Some e, f)) ∧
  (¬ without "="%char arg →
   ∃ m, exportSet Quote f arg = (None, Some m)).
Proof.
  unfold exportSet. pose proof (Cut_spec arg) as HS.
  destruct (Cut arg) as [[ident value] [|]]; simpl.
  - destruct HS as [-> Hi]. split; [|by eexists].
    intros HS. exfalso. clear -HS.
    induction ident as [|c ident IH]; simpl in HS.
    + by destruct HS as [HS _].
    + destruct HS as [_ HS]. by apply IH.
  - destruct HS as (-> & -> & HS). split; [by eexists|]. done.
Qed.

Lemma exportSet_refuses_witness :
  (∃ e, exportSet sample.quoted None "PATH" = (Some e, None)) ∧
  (∃ m, exportSet sample.quoted None "=x" = (None, Some m)).
Proof.
  split.
  - refine (proj1 (exportSet_refuses sample.quoted None "PATH") _).
    repeat split; discriminate.
  - refine (proj2 (exportSet_refuses sample.quoted None "=x") _).
    intros [H _]. by apply H.
Defined.

(** The keys of the exports built by the flag. *)
Lemma exportSet_keys (Quote : string → string)
      (f : option (gmap string string)) (arg : string)
      (m : gmap string string) :
  exportSet Quote f arg = (None, Some m) →
  (∀ k v, default ∅ f !! k = Some v → without "="%char k) →
  ∀ k v, m !! k = Some v → without "="%char k.
Proof.
  unfold exportSet. pose proof (Cut_spec arg) as HS.
  destruct (Cut arg) as [[ident value] [|]]; simpl; [|done].
  destruct HS as [_ Hi]. intros [= <-] Hf k v.
  destruct (decide (ident = k)) as [<-|Hne]; [done|].
  rewrite lookup_insert_ne by done. destruct f; simpl in *; eauto.
Qed.

(** X16.  The names of the exports never contain ["="]: the flag keeps
    this property of the mapping, and under it every entry of the
    environment that the handler builds reads back, cut at its first
    ["="], as the name and the value it was built from. *)
Theorem export_entries_read_back
        (Quote : string → string) (f : option (gmap string string))
        (arg : string) (m : gmap string string) (s : Service) (w : World)
        (k : nat) :
  exportSet Quote f arg = (None, Some m) →
  (∀ name value, default ∅ f !! name = Some value → without "="%char name) →
  expo s = m →
  rangeMap w k (map_to_list m) ≡ₚ map_to_list m →
  (∀ name value, m !! name = Some value → without "="%char name) ∧
  ∀ entry, entry ∈ export s w k →
           ∃ name value, m !! name = Some value ∧
                         Cut entry = (name, value, true).
Proof.
  intros HS Hf Hexpo Hperm.
  pose proof (exportSet_keys Quote f arg m HS Hf) as Hkeys.
  split; [done|]. intros entry. unfold export. rewrite Hexpo, Hperm.
  intros ([name value] & -> & Hin%elem_of_map_to_list)%list_elem_of_fmap.
  exists name, value. split; [done|].
  apply Cut_assignment. by eapply Hkeys.
Qed.

Lemma export_entries_read_back_witness :
  ∃ name value,
    ({[ "FOO" := "bar" ]} : gmap string string) !! name = Some value ∧
    Cut "FOO=bar" = (name, value, true).
Proof.
  refine (proj2 (export_entries_read_back sample.quoted (Some ∅) "FOO=bar"
                   {[ "FOO" := "bar" ]} sample.withExport sample.calm 0
                   _ _ _ _) "FOO=bar" _).
  - reflexivity.
  - intros name value H. simpl in H. by rewrite lookup_empty in H.
  - reflexivity.
  - reflexivity.
  - vm_compute. constructor.
Defined.

(** ** The text of the flag *)

(** Once something has been written, every further entry is written after
    a comma. *)
Lemma writeEntries_started (Quote : string → string) (sb : string)
      (kvs : list (string * string)) :
  0 < len sb →
  writeEntries Quote sb kvs
  = sb +:+ concat ((λ kv, "," +:+ kv.1 +:+ "=" +:+ Quote kv.2) <$> kvs).
Proof.
  revert sb. induction kvs as [|[k v] kvs IH]; intros sb Hsb.
  - simpl. by rewrite append_nil_r.
  - cbn [writeEntries]. rewrite bool_decide_eq_true_2 by done.
    rewrite IH by (rewrite !len_app; lia).
    rewrite fmap_cons.
    change (concat (?x :: ?l)) with (x +:+ concat l).
    cbn [fst snd]. by rewrite !append_assoc.
Qed.

(** X28.  The text of the flag [-e] lists the exports in the order in
    which the mapping is ranged over, each as the name, ["="] and the
    quoted value, with one comma between two entries and none before the
    first or after the last, also when the first name is empty; without
    exports the text is empty. *)
Theorem exportString_joins
        (Quote : string → string) (k v : string)
        (kvs : list (string * string)) :
  exportString Quote [] = "" ∧
  exportString Quote ((k, v) :: kvs)
  = (k +:+ "=" +:+ Quote v)
    +:+ concat ((λ kv, "," +:+ kv.1 +:+ "=" +:+ Quote kv.2) <$> kvs).
Proof.
  split; [done|]. unfold exportString. cbn [writeEntries].
  rewrite bool_decide_eq_false_2 by (simpl; lia).
  rewrite writeEntries_started by (rewrite !len_app; simpl; lia).
  change ("" +:+ k) with k. by rewrite !append_assoc.
Qed.


(** ** The arguments [shell[:addr][:port]] *)

Lemma Split_without (s : string) : without ":"%char s → Split s = [s].
Proof.
  induction s as [|c s IH]; intros Hs; [done|].
  destruct Hs as [Hc Hs]. simpl. rewrite decide_False by done.
  by rewrite (IH Hs).
Qed.

Lemma Split_colon (a rest : string) :
  without ":"%char a → Split (a +:+ ":" +:+ rest) = a :: Split rest.
Proof.
  induction a as [|c a IH]; intros Ha.
  - reflexivity.
  - destruct Ha as [Hc Ha].
    change (Split (String c (a +:+ ":" +:+ rest)) = String c a :: Split rest).
    simpl. rewrite decide_False by done. by rewrite (IH Ha).
Qed.

Lemma Split_cons (s : string) : ∃ p ps, Split s = p :: ps.
Proof.
  induction s as [|c s (p & ps & IH)]; simpl; [by eexists _, _|].
  rewrite IH. destruct (decide (c = ":"%char)); by eexists _, _.
Qed.

Section arguments.

Variable os : OS.
Variable Quote : string → string.
Variable Atoi : string → error + Z.
Variable Itoa : Z → string.

(** X17.  An argument that [parseServiceArg] accepts gives a port between
    1 and 65535, an address that is not empty unless the default address
    is, and the shell that [resolveShell] makes of the text before the
    first colon, text which is not empty. *)
Theorem parseServiceArg_accepts
        (arg defaultAddr : string) (defaultPort : Z)
        (path addr : string) (port : Z) :
  parseServiceArg os Quote Atoi Itoa arg defaultAddr defaultPort
  = inr (path, addr, port) →
  (1 ≤ port ≤ 65535)%Z ∧
  (defaultAddr ≠ "" → addr ≠ "") ∧
  ∃ name more, Split arg = name :: more ∧ name ≠ "" ∧
               resolveShell os Quote name = inr path.
Proof.
  unfold parseServiceArg.
  destruct (Split arg) as [|name more] eqn:HSplit; [done|].
  destruct (decide (name = "")) as [|Hname]; [done|].
  match goal with
  | |- match ?parsed with inl _ => _ | inr _ => _ end = _ → _ =>
      destruct parsed as [e|[a n]] eqn:Hparsed; [done|]
  end.
  case_bool_decide as Hrange; [done|].
  destruct (resolveShell os Quote name) as [e|p] eqn:Hres; [done|].
  intros [= <- <- <-]. split_and!.
  - revert Hrange. destruct (decide (n = 0%Z)); lia.
  - revert Hrange. destruct (decide (n = 0%Z)); lia.
  - intros Hd. by destruct (decide (a = "")).
  - by exists name, more.
Qed.

(** X18.  A name without colon takes the default address and the default
    port; in [name:text] the text is the address, whatever it looks like,
    and the port is the default: [strconv.Atoi] is not asked. *)
Theorem parseServiceArg_without_port
        (name text defaultAddr : string) (defaultPort : Z) :
  without ":"%char name → name ≠ "" → without ":"%char text →
  (1 ≤ defaultPort ≤ 65535)%Z →
  parseServiceArg os Quote Atoi Itoa name defaultAddr defaultPort
  = match resolveShell os Quote name with
    | inl e => inl e
    | inr path => inr (path, defaultAddr, defaultPort)
    end ∧
  parseServiceArg os Quote Atoi Itoa (name +:+ ":" +:+ text)
                  defaultAddr defaultPort
  = match resolveShell os Quote name with
    | inl e => inl e
    | inr path =>
        inr (path, if decide (text = "") then defaultAddr else text,
             defaultPort)
    end.
Proof.
  intros Hname Hne Htext Hport. unfold parseServiceArg. split.
  - rewrite (Split_without _ Hname). rewrite decide_False by done.
    rewrite (decide_True (P := 0%Z = 0%Z)) by done.
    rewrite bool_decide_eq_false_2 by lia. done.
  - rewrite (Split_colon _ _ Hname), (Split_without _ Htext).
    rewrite decide_False by done.
    rewrite (decide_True (P := 0%Z = 0%Z)) by done.
    rewrite bool_decide_eq_false_2 by lia. done.
Qed.

(** X19.  In [name:addr:port] the port is what [strconv.Atoi] reads,
    except that a port of 0, like an empty one, stands for the default
    port; a port outside 1..65535 is refused before the shell is looked
    at, and so is a port that is not a number. *)
Theorem parseServiceArg_with_port
        (name a p defaultAddr : string) (defaultPort : Z) :
  without ":"%char name → name ≠ "" →
  without ":"%char a → without ":"%char p → p ≠ "" →
  parseServiceArg os Quote Atoi Itoa (name +:+ ":" +:+ a +:+ ":" +:+ p)
                  defaultAddr defaultPort
  = match Atoi p with
    | inl e =>
        inl (wrapError ("invalid port " +:+ Quote p +:+ ": " +:+ Error e) e)
    | inr n =>
        let port := if decide (n = 0%Z) then defaultPort else n in
        if bool_decide (1 ≤ port ≤ 65535)%Z then
          match resolveShell os Quote name with
          | inl e => inl e
          | inr path =>
              inr (path, if decide (a = "") then defaultAddr else a, port)
          end
        else inl (errorString ("port " +:+ Itoa port
                               +:+ " out of range (1-65535)"))
    end.
Proof.
  intros Hname Hne Ha Hp Hpne. unfold parseServiceArg.
  rewrite (Split_colon _ _ Hname), (Split_colon _ _ Ha), (Split_without _ Hp).
  rewrite decide_False by done. rewrite (decide_False (P := p = "")) by done.
  destruct (Atoi p) as [e|n]; [done|]. cbn zeta.
  destruct (decide (n = 0%Z)); repeat case_bool_decide; try lia; done.
Qed.

(** X20.  An argument with more than two colons is refused, and so is one
    that starts with a colon or is empty, whatever the defaults are and
    whether or not its parts would make sense. *)
Theorem parseServiceArg_refuses
        (arg defaultAddr : string) (defaultPort : Z) :
  (∀ a b c d, without ":"%char a → without ":"%char b → without ":"%char c →
              arg = a +:+ ":" +:+ b +:+ ":" +:+ c +:+ ":" +:+ d →
              ∃ e, parseServiceArg os Quote Atoi Itoa arg defaultAddr
                                   defaultPort = inl e) ∧
  (∀ rest, arg = ":" +:+ rest ∨ arg = "" →
           parseServiceArg os Quote Atoi Itoa arg defaultAddr defaultPort
           = inl (errorString "shell name is required")).
Proof.
  split.
  - intros a b c d Ha Hb Hc ->. unfold parseServiceArg.
    rewrite (Split_colon _ _ Ha), (Split_colon _ _ Hb), (Split_colon _ _ Hc).
    destruct (Split_cons d) as (p & ps & ->).
    destruct (decide (a = "")); by eexists.
  - intros rest [-> | ->]; unfold parseServiceArg.
    + pose proof (Split_colon "" rest I) as HS.
      change ("" +:+ ":" +:+ rest) with (":" +:+ rest) in HS.
      by rewrite HS.
    + done.
Qed.

End arguments.

Lemma parseServiceArg_accepts_witness :
  parseServiceArg sample.lockedDir sample.quoted sample.atoi8080 (λ _, "8080")
                  "/bin/sh::8080" "127.0.0.1" 50135
  = inr ("/bin/sh", "127.0.0.1", 8080%Z) ∧
  (1 ≤ 8080 ≤ 65535)%Z.
Proof.
  split; [reflexivity|].
  refine (proj1 (parseServiceArg_accepts sample.lockedDir sample.quoted
                   sample.atoi8080 (λ _, "8080") "/bin/sh::8080" "127.0.0.1"
                   50135 "/bin/sh" "127.0.0.1" 8080 _)).
  reflexivity.
Defined.

Lemma parseServiceArg_without_port_witness :
  parseServiceArg sample.lockedDir sample.quoted sample.atoi8080 (λ _, "8080")
                  ("/bin/sh" +:+ ":" +:+ "900") "127.0.0.1" 50135
  = match resolveShell sample.lockedDir sample.quoted "/bin/sh" with
    | inl e => inl e
    | inr path =>
        inr (path, if decide ("900" = "") then "127.0.0.1" else "900",
             50135%Z)
    end.
Proof.
  refine (proj2 (parseServiceArg_without_port sample.lockedDir sample.quoted
                   sample.atoi8080 (λ _, "8080") "/bin/sh" "900" "127.0.0.1"
                   50135 _ _ _ _)).
  - repeat split; discriminate.
  - discriminate.
  - repeat split; discriminate.
  - lia.
Defined.

Lemma parseServiceArg_refuses_witness :
  (∃ e, parseServiceArg sample.lockedDir sample.quoted sample.atoi8080
                        (λ _, "8080") "sh:::8080" "127.0.0.1" 50135 = inl e) ∧
  parseServiceArg sample.lockedDir sample.quoted sample.atoi8080 (λ _, "8080")
                  ":8080" "127.0.0.1" 50135
  = inl (errorString "shell name is required").
Proof.
  split.
  - refine (proj1 (parseServiceArg_refuses sample.lockedDir sample.quoted
                     sample.atoi8080 (λ _, "8080") "sh:::8080" "127.0.0.1"
                     50135) "sh" "" "" "8080" _ _ _ _).
    + repeat split; discriminate.
    + exact I.
    + exact I.
    + reflexivity.
  - refine (proj2 (parseServiceArg_refuses sample.lockedDir sample.quoted
                     sample.atoi8080 (λ _, "8080") ":8080" "127.0.0.1"
                     50135) "8080" _).
    by left.
Defined.

Lemma parseServiceArg_with_port_witness :
  parseServiceArg sample.lockedDir sample.quoted sample.atoi8080 (λ _, "8080")
                  ("/bin/sh" +:+ ":" +:+ "" +:+ ":" +:+ "0") "127.0.0.1" 50135
  = inr ("/bin/sh", "127.0.0.1", 50135%Z).
Proof.
  refine (parseServiceArg_with_port sample.lockedDir sample.quoted
            sample.atoi8080 (λ _, "8080") "/bin/sh" "" "0" "127.0.0.1" 50135
            _ _ _ _ _).
  - repeat split; discriminate.
  - discriminate.
  - exact I.
  - repeat split; discriminate.
  - discriminate.
Defined.

(** ** The defaults and the loop over the arguments *)


(** X22.  The forms of the flag [-l]: empty, it leaves both defaults; a
    text without colon is a port; in [addr:port] an empty address or an
    empty port leaves that default; more than one colon makes the program
    exit with status 1, and so does a port that is not a number. *)
Theorem listenDefaults_forms
        (Atoi : string → error + Z) (a p c : string) :
  without ":"%char a → without ":"%char p →
  listenDefaults Atoi "" = inr ("127.0.0.1", 50135%Z) ∧
  (p ≠ "" →
   listenDefaults Atoi p
   = match Atoi p with
     | inl _ => inl 1%Z
     | inr n => inr ("127.0.0.1", n)
     end) ∧
  listenDefaults Atoi (a +:+ ":" +:+ p)
  = (let addr := if decide (a = "") then "127.0.0.1" else a in
     if decide (p = "") then inr (addr, 50135%Z)
     else match Atoi p with
          | inl _ => inl 1%Z
          | inr n => inr (addr, n)
          end) ∧
  listenDefaults Atoi (a +:+ ":" +:+ p +:+ ":" +:+ c) = inl 1%Z.
Proof.
  intros Ha Hp. unfold listenDefaults. split_and!.
  - done.
  - intros Hne. rewrite decide_False by done.
    by rewrite (Split_without _ Hp).
  - rewrite decide_False by by destruct a.
    by rewrite (Split_colon _ _ Ha), (Split_without _ Hp).
  - rewrite decide_False by by destruct a.
    rewrite (Split_colon _ _ Ha), (Split_colon _ _ Hp).
    by destruct (Split_cons c) as (x & xs & ->).
Qed.

Section startup.

Variable os : OS.
Variable Quote : string → string.
Variable Atoi : string → error + Z.
Variable Itoa : Z → string.

Lemma parseServiceArg_name (name defaultAddr : string) (defaultPort : Z) :
  without ":"%char name → name ≠ "" →
  parseServiceArg os Quote Atoi Itoa name defaultAddr defaultPort
  = if bool_decide (defaultPort < 1 ∨ defaultPort > 65535)%Z then
      inl (errorString ("port " +:+ Itoa defaultPort
                        +:+ " out of range (1-65535)"))
    else match resolveShell os Quote name with
         | inl e => inl e
         | inr path => inr (path, defaultAddr, defaultPort)
         end.
Proof.
  intros Hname Hne. unfold parseServiceArg.
  rewrite (Split_without _ Hname). rewrite decide_False by done.
  by rewrite (decide_True (P := 0%Z = 0%Z)) by done.
Qed.

(** X23.  A default port outside 1..65535, which the flag [-l] accepts,
    is found out only when an argument needs it: every argument that is a
    plain name is then refused, before its shell is looked at. *)
Theorem bad_default_port_refused_late
        (listen addr name : string) (port : Z) :
  listenDefaults Atoi listen = inr (addr, port) →
  ¬ (1 ≤ port ≤ 65535)%Z →
  without ":"%char name → name ≠ "" →
  parseServiceArg os Quote Atoi Itoa name addr port
  = inl (errorString ("port " +:+ Itoa port +:+ " out of range (1-65535)")).
Proof.
  intros _ Hport Hname Hne. rewrite parseServiceArg_name by done.
  by rewrite bool_decide_eq_true_2 by lia.
Qed.

Lemma parseServiceArg_range (arg defaultAddr : string) (defaultPort : Z)
      (path addr : string) (port : Z) :
  parseServiceArg os Quote Atoi Itoa arg defaultAddr defaultPort
  = inr (path, addr, port) →
  (1 ≤ port ≤ 65535)%Z.
Proof.
  unfold parseServiceArg.
  destruct (Split arg) as [|name more]; [done|].
  destruct (decide (name = "")) as [|Hname]; [done|].
  match goal with
  | |- match ?parsed with inl _ => _ | inr _ => _ end = _ → _ =>
      destruct parsed as [e|[a z]]; [done|]
  end.
  case_bool_decide as Hrange; [done|].
  destruct (resolveShell os Quote name); [done|].
  intros [= <- <- <-]. revert Hrange. destruct (decide (z = 0%Z)); lia.
Qed.

(** X24.  When the loop over the arguments gets through, it has started
    one service for each argument, in order; each has a port between 1 and
    65535, the protocol tcp, the exports of the command line, and a
    command that [exec.LookPath] returned for its shell. *)
Theorem services_started
        (args : list string) (defaultAddr : string) (defaultPort : Z)
        (expo : gmap string string) (svcs : list Service) :
  ∀ portOffset,
    services os Quote Atoi Itoa args defaultAddr defaultPort portOffset expo
    = inr svcs →
    List.length svcs = List.length args ∧
    Forall (λ svc, (1 ≤ srv.port svc ≤ 65535)%Z ∧
                   srv.proto svc = "tcp" ∧
                   srv.expo svc = expo ∧
                   LookPath os (srv.shell svc) = inr (srv.cmd svc)) svcs.
Proof.
  revert svcs. induction args as [|arg args IH]; intros svcs off; simpl.
  - by intros [= <-].
  - destruct (parseServiceArg os Quote Atoi Itoa arg defaultAddr _)
      as [e|[[path addr] port]] eqn:Hparse; [done|].
    apply parseServiceArg_range in Hparse.
    unfold Make at 1.
    destruct (LookPath os path) as [e|cmd] eqn:Hlook; [done|].
    match goal with
    | |- match services _ _ _ _ _ _ _ ?o _ with _ => _ end = _ → _ =>
        destruct (services os Quote Atoi Itoa args defaultAddr defaultPort
                           o expo) as [code|svcs'] eqn:Hrest; [done|]
    end.
    intros [= <-]. apply IH in Hrest as [Hlen Hall].
    split; [simpl; by rewrite Hlen|]. by constructor.
Qed.

(** X25.  Arguments that are plain names, each of which resolves to a
    shell, are served on the default address and on consecutive ports,
    from the default port on, in the order of the command line. *)
Theorem services_consecutive_ports
        (args : list string) (defaultAddr : string) (defaultPort : Z)
        (expo : gmap string string) :
  Forall (λ name, without ":"%char name ∧ name ≠ "" ∧
                  ∃ path cmd, resolveShell os Quote name = inr path ∧
                              LookPath os path = inr cmd) args →
  (1 ≤ defaultPort)%Z →
  (defaultPort + Z.of_nat (List.length args) ≤ 65536)%Z →
  ∃ svcs,
    services os Quote Atoi Itoa args defaultAddr defaultPort 0 expo = inr svcs ∧
    ∀ i name, args !! i = Some name →
              ∃ svc, svcs !! i = Some svc ∧
                     srv.port svc = (defaultPort + Z.of_nat i)%Z ∧
                     srv.addr svc = defaultAddr ∧
                     resolveShell os Quote name = inr (srv.shell svc).
Proof.
  intros Hargs Hport Hlen.
  assert (∀ off,
             (0 ≤ off)%Z →
             (defaultPort + off + Z.of_nat (List.length args) ≤ 65536)%Z →
             ∃ svcs,
               services os Quote Atoi Itoa args defaultAddr defaultPort off expo
               = inr svcs ∧
               ∀ i name, args !! i = Some name →
                         ∃ svc, svcs !! i = Some svc ∧
                                srv.port svc
                                = (defaultPort + off + Z.of_nat i)%Z ∧
                                srv.addr svc = defaultAddr ∧
                                resolveShell os Quote name
                                = inr (srv.shell svc)) as Hgen.
  { clear Hlen.
    induction Hargs as [|name args (Hname & Hne & path & cmd & Hres & Hlook)
                          _ IH]; intros off Hoff Hlen.
    - exists []. split; [done|]. intros i name Hi. by rewrite lookup_nil in Hi.
    - simpl in Hlen. simpl.
      rewrite (int_isInt (defaultPort + off)) by (unfold goint.isInt; lia).
      rewrite parseServiceArg_name by done.
      rewrite bool_decide_eq_false_2 by lia. rewrite Hres.
      rewrite decide_True by done.
      rewrite (int_isInt (off + 1)) by (unfold goint.isInt; lia).
      unfold Make at 1. rewrite Hlook.
      destruct (IH (off + 1)%Z) as (svcs & -> & Hsvcs); [lia..|].
      eexists. split; [done|].
      intros [|i] name' Hi; simpl in Hi.
      + injection Hi as <-. eexists. split; [done|]. simpl.
        split_and!; [lia|done|done].
      + destruct (Hsvcs i name' Hi) as (svc & Hsvc & Hp & Ha & Hr).
        exists svc. split_and!; [done|lia|done|done]. }
  destruct (Hgen 0%Z) as (svcs & Hs & Hsvcs); [lia..|].
  exists svcs. split; [done|].
  intros i name Hi. destruct (Hsvcs i name Hi) as (svc & ? & Hp & ? & ?).
  exists svc. split_and!; [done|lia|done|done].
Qed.

(** X26.  The counting of default ports takes no account of the ports
    that are given: after a service on the port that follows the default
    one, the second of two plain names is bound to that same port, on the
    same address when none was given. *)
Theorem services_port_collision
        (first p second third defaultAddr : string) (defaultPort : Z)
        (expo : gmap string string) (svcs : list Service) :
  without ":"%char first → first ≠ "" →
  without ":"%char p → p ≠ "" →
  without ":"%char second → second ≠ "" →
  without ":"%char third → third ≠ "" →
  Atoi p = inr (defaultPort + 1)%Z →
  (1 ≤ defaultPort)%Z → (defaultPort + 1 ≤ 65535)%Z →
  services os Quote Atoi Itoa
           [first +:+ ":" +:+ "" +:+ ":" +:+ p; second; third]
           defaultAddr defaultPort 0 expo
  = inr svcs →
  ∃ s1 s2 s3,
    svcs = [s1; s2; s3] ∧
    srv.port s2 = defaultPort ∧
    srv.port s1 = (defaultPort + 1)%Z ∧ srv.port s3 = (defaultPort + 1)%Z ∧
    srv.addr s1 = defaultAddr ∧ srv.addr s3 = defaultAddr.
Proof.
  intros H1 Hn1 Hp Hpn H2 Hn2 H3 Hn3 Hatoi Hlo Hhi. simpl.
  rewrite Z.add_0_r, (int_isInt defaultPort) by (unfold goint.isInt; lia).
  assert (parseServiceArg os Quote Atoi Itoa
            (first +:+ ":" +:+ "" +:+ ":" +:+ p) defaultAddr defaultPort
          = match resolveShell os Quote first with
            | inl e => inl e
            | inr path => inr (path, defaultAddr, (defaultPort + 1)%Z)
            end) as ->.
  { unfold parseServiceArg.
    rewrite (Split_colon _ _ H1), (Split_colon "" _ I), (Split_without _ Hp).
    rewrite decide_False by done.
    rewrite (decide_False (P := p = "")) by done. rewrite Hatoi.
    rewrite (decide_False (P := (defaultPort + 1)%Z = 0%Z)) by lia.
    by rewrite bool_decide_eq_false_2 by lia. }
  destruct (resolveShell os Quote first) as [e|path1]; [done|].
  rewrite (decide_False (P := (defaultPort + 1)%Z = defaultPort)) by lia.
  unfold Make at 1. destruct (LookPath os path1) as [e|cmd1]; [done|].
  rewrite Z.add_0_r, (int_isInt defaultPort) by (unfold goint.isInt; lia).
  rewrite parseServiceArg_name by done.
  rewrite bool_decide_eq_false_2 by lia.
  destruct (resolveShell os Quote second) as [e|path2]; [done|].
  rewrite decide_True by done.
  unfold Make at 1. destruct (LookPath os path2) as [e|cmd2]; [done|].
  change (goint.int (0 + 1)) with 1%Z.
  rewrite (int_isInt (defaultPort + 1)) by (unfold goint.isInt; lia).
  rewrite parseServiceArg_name by done.
  rewrite bool_decide_eq_false_2 by lia.
  destruct (resolveShell os Quote third) as [e|path3]; [done|].
  unfold Make at 1. destruct (LookPath os path3) as [e|cmd3]; [done|].
  intros [= <-]. by eexists _, _, _.
Qed.

End startup.


Lemma listenDefaults_forms_witness :
  listenDefaults sample.atoi8080 ("0.0.0.0" +:+ ":" +:+ "8080")
  = inr ("0.0.0.0", 8080%Z).
Proof.
  refine (proj1 (proj2 (proj2 (listenDefaults_forms sample.atoi8080
                                 "0.0.0.0" "8080" "" _ _)))).
  - repeat split; discriminate.
  - repeat split; discriminate.
Defined.

Lemma bad_default_port_refused_late_witness :
  listenDefaults sample.atoi8080 "0" = inr ("127.0.0.1", 0%Z) ∧
  parseServiceArg sample.unix sample.quoted sample.atoi8080 (λ _, "0")
                  "sh" "127.0.0.1" 0
  = inl (errorString ("port " +:+ "0" +:+ " out of range (1-65535)")).
Proof.
  split; [reflexivity|].
  refine (bad_default_port_refused_late sample.unix sample.quoted
            sample.atoi8080 (λ _, "0") "0" "127.0.0.1" "sh" 0 _ _ _ _).
  - reflexivity.
  - lia.
  - repeat split; discriminate.
  - discriminate.
Defined.

Lemma services_started_witness :
  services sample.unix sample.quoted sample.atoi8080 (λ _, "?")
           ["sh"; "bash::8080"] "127.0.0.1" 50135 0 ∅
  = inr [sample.service "/bin/sh" 50135; sample.service "/bin/bash" 8080] ∧
  List.length [sample.service "/bin/sh" 50135; sample.service "/bin/bash" 8080]
  = List.length ["sh"; "bash::8080"].
Proof.
  split; [vm_compute; reflexivity|].
  refine (proj1 (services_started sample.unix sample.quoted sample.atoi8080
                   (λ _, "?") ["sh"; "bash::8080"] "127.0.0.1" 50135 ∅
                   [sample.service "/bin/sh" 50135;
                    sample.service "/bin/bash" 8080] 0%Z _)).
  vm_compute. reflexivity.
Defined.

Lemma services_consecutive_ports_witness :
  ∃ svcs,
    services sample.unix sample.quoted sample.atoi8080 (λ _, "?")
             ["sh"; "bash"] "127.0.0.1" 50135 0 ∅ = inr svcs ∧
    ∀ i name, ["sh"; "bash"] !! i = Some name →
              ∃ svc, svcs !! i = Some svc ∧
                     srv.port svc = (50135 + Z.of_nat i)%Z ∧
                     srv.addr svc = "127.0.0.1" ∧
                     resolveShell sample.unix sample.quoted name
                     = inr (srv.shell svc).
Proof.
  refine (services_consecutive_ports sample.unix sample.quoted
            sample.atoi8080 (λ _, "?") ["sh"; "bash"] "127.0.0.1" 50135 ∅
            _ _ _).
  - repeat constructor; try discriminate.
    + by exists "/bin/sh", "/bin/sh".
    + by exists "/bin/bash", "/bin/bash".
  - lia.
  - simpl. lia.
Defined.

Lemma services_port_collision_witness :
  ∃ s1 s2 s3,
    [sample.service "/bin/sh" 50136; sample.service "/bin/bash" 50135;
     sample.service "/bin/sh" 50136] = [s1; s2; s3] ∧
    srv.port s2 = 50135%Z ∧
    srv.port s1 = (50135 + 1)%Z ∧ srv.port s3 = (50135 + 1)%Z ∧
    srv.addr s1 = "127.0.0.1" ∧ srv.addr s3 = "127.0.0.1".
Proof.
  refine (services_port_collision sample.unix sample.quoted sample.atoi8080
            (λ _, "?") "sh" "50136" "bash" "sh" "127.0.0.1" 50135 ∅ _
            _ _ _ _ _ _ _ _ _ _ _ _).
  - repeat split; discriminate.
  - discriminate.
  - repeat split; discriminate.
  - discriminate.
  - repeat split; discriminate.
  - discriminate.
  - repeat split; discriminate.
  - discriminate.
  - reflexivity.
  - lia.
  - lia.
  - vm_compute. reflexivity.
Defined.

(* ===================================================================== *)
(** * The listener and its tasks *)
(* ===================================================================== *)

Lemma acceptLoop_tasks (s : Service) (ticks : list Tick) :
  tasks (acceptLoop s ticks).2
  = (λ wc, serve s wc.1 wc.2) <$> acceptedBefore ticks ∧
  (acceptLoop s ticks).1
  = if bool_decide (Exists (λ t, done t = true) ticks)
    then Returned None else Accepting.
Proof.
  induction ticks as [|t ticks [IHt IHs]].
  - by split.
  - assert (bool_decide (Exists (λ t, done t = true) (t :: ticks))
            = done t || bool_decide (Exists (λ t, done t = true) ticks))
      as ->.
    { destruct (done t) eqn:Hd; simpl.
      - apply bool_decide_eq_true_2. by left.
      - apply bool_decide_ext. rewrite Exists_cons.
        split; [intros [H|H]; [congruence|done]|by right]. }
    cbn [acceptLoop acceptedBefore]. destruct (done t); [done|]. simpl orb.
    destruct (accepted t), (acceptLoop s ticks) as [st acts];
      cbn [fst snd] in *; (split; [|done]);
      unfold tasks in *; cbn [omap list_omap]; by rewrite ?IHt, ?fmap_cons.
Qed.

(** X27.  A listener that has bound its socket serves, once each and in
    the order of their arrival, the connections accepted before the first
    iteration that finds the context cancelled, and no other: not those
    whose accept failed, nor the one that arrives together with the
    cancellation.  It returns nil if some iteration finds the context
    cancelled and is still accepting otherwise. *)
Theorem ListenAndServe_serves_accepted (s : Service) (ticks : list Tick) :
  tasks (ListenAndServe s None ticks).2
  = (λ wc, serve s wc.1 wc.2) <$> acceptedBefore ticks ∧
  (ListenAndServe s None ticks).1
  = if bool_decide (Exists (λ t, done t = true) ticks)
    then Returned None else Accepting.
Proof.
  destruct (acceptLoop_tasks s ticks) as [Ht Hs].
  unfold ListenAndServe. destruct (acceptLoop s ticks) as [st acts].
  simpl in *. split; [|done].
  unfold tasks in *. rewrite omap_app, Ht.
  destruct st; simpl; by rewrite app_nil_r.
Qed.
